(** * Skydive graffiti: coordination-store client and topology forwarder

  A shallow embedding of

  - [graffiti/etcd/client/client.go]  (package [client]) and
  - [graffiti/forwarder/forwarder.go] (package [forwarder]),

  together with the properties of their natural-language specification. *)

From Stdlib Require Import ZArith Lia Bool List Ascii String.
From Stdlib Require Import Numbers.DecimalString.
From Stdlib Require Numbers.DecimalPos.
From stdpp Require Import base gmap strings.

Import ListNotations.
Local Open Scope string_scope.
Local Open Scope Z_scope.

(** ** Machine integers of the Go code *)

Module GoInt.

Definition maxUint64 : Z := 2 ^ 64 - 1.
Definition minInt64 : Z := - 2 ^ 63.
Definition maxInt64 : Z := 2 ^ 63 - 1.

(** Arithmetic on [uint64] wraps around modulo [2^64]. *)
Definition uint64 (z : Z) : Z := z mod 2 ^ 64.

(** Conversion to [int64]: two's complement reading of the low 64 bits. *)
Definition int64 (z : Z) : Z := (z + 2 ^ 63) mod 2 ^ 64 - 2 ^ 63.

Definition is_int64 (z : Z) : Prop := minInt64 <= z <= maxInt64.

(** The byte value of a character of a Go string. *)
Definition byte (c : ascii) : Z := Z.of_N (N_of_ascii c).

End GoInt.

(** ** Package strconv (Go standard library), as used by the client

  [strconv.ParseInt] and [strconv.FormatInt] are called with base 10 and
  bit size 64 only; the embedding follows the library's algorithm for
  those arguments. *)

Module strconv.
Import GoInt.

Inductive Err := ErrSyntax | ErrRange.

Record NumError := { Func : string; Num : string; Err_ : Err }.

Definition syntaxError (fn str : string) : NumError :=
  {| Func := fn; Num := str; Err_ := ErrSyntax |}.
Definition rangeError (fn str : string) : NumError :=
  {| Func := fn; Num := str; Err_ := ErrRange |}.

Definition base : Z := 10.
Definition bitSize : Z := 64.

(** [lower(c)] of the library: [c | ('x' - 'X')]. *)
Definition lower (c : Z) : Z := Z.lor c 32.

(** The body of the [for _, c := range []byte(s)] loop of [ParseUint];
    [n] is the [uint64] accumulator. *)
Fixpoint ParseUint_loop (s0 : string) (cutoff maxVal : Z) (s : string) (n : Z)
  : Z * option NumError :=
  match s with
  | EmptyString => (n, None)
  | String ch rest =>
      let c := byte ch in
      let digit :=
        if (48 <=? c) && (c <=? 57) then Some (c - 48)
        else if (97 <=? lower c) && (lower c <=? 122) then Some (lower c - 97 + 10)
        else None in
      match digit with
      | None => (0, Some (syntaxError "ParseUint" s0))
      | Some d =>
          if base <=? d then (0, Some (syntaxError "ParseUint" s0))
          else if cutoff <=? n then (maxVal, Some (rangeError "ParseUint" s0))
          else
            let n' := uint64 (n * base) in
            let n1 := uint64 (n' + d) in
            if (n1 <? n') || (maxVal <? n1)
            then (maxVal, Some (rangeError "ParseUint" s0))
            else ParseUint_loop s0 cutoff maxVal rest n1
      end
  end.

Definition ParseUint (s : string) : Z * option NumError :=
  match s with
  | EmptyString => (0, Some (syntaxError "ParseUint" s))
  | _ =>
      let cutoff := maxUint64 / 10 + 1 in
      let maxVal := uint64 (Z.shiftl 1 bitSize - 1) in
      ParseUint_loop s cutoff maxVal s 0
  end.

Definition ParseInt (s : string) : Z * option NumError :=
  match s with
  | EmptyString => (0, Some (syntaxError "ParseInt" s))
  | String ch rest =>
      let s0 := s in
      let '(neg, s) :=
        if Ascii.eqb ch "+" then (false, rest)
        else if Ascii.eqb ch "-" then (true, rest)
        else (false, s) in
      let '(un, err) := ParseUint s in
      match err with
      | Some {| Err_ := ErrSyntax |} => (0, Some (syntaxError "ParseInt" s0))
      | _ =>
          let cutoff := uint64 (Z.shiftl 1 (bitSize - 1)) in
          if negb neg && (cutoff <=? un)
          then (int64 (cutoff - 1), Some (rangeError "ParseInt" s0))
          else if neg && (cutoff <? un)
          then (int64 (- int64 cutoff), Some (rangeError "ParseInt" s0))
          else
            let n := int64 un in
            let n := if neg then int64 (- n) else n in
            (n, None)
      end
  end.

(** [FormatInt(i, 10)]: the shortest decimal numeral of [i], with a
    leading minus sign when it is negative. *)
Definition FormatInt (i : Z) : string := NilZero.string_of_int (Z.to_int i).

(** [Quote(s)]: the string as a double-quoted Go literal. A double quote
    and a backslash get a backslash, control characters their escape
    sequence; printable ASCII stays as it is. Bytes above 0x7f are taken
    to spell printable runes, which [Quote] leaves as they are. *)
Definition double_quote : ascii := ascii_of_N 34.

Definition hex_digit (n : Z) : ascii :=
  match String.get (Z.to_nat n) "0123456789abcdef" with
  | Some c => c
  | None => "0"%char
  end.

Definition quote_byte (ch : ascii) : string :=
  let c := byte ch in
  if c =? 34 then String "\" (String double_quote "")
  else if c =? 92 then "\\"
  else if c =? 7 then "\a"
  else if c =? 8 then "\b"
  else if c =? 12 then "\f"
  else if c =? 10 then "\n"
  else if c =? 13 then "\r"
  else if c =? 9 then "\t"
  else if c =? 11 then "\v"
  else if (c <? 32) || (c =? 127)
  then String "\" (String "x" (String (hex_digit (c / 16)) (String (hex_digit (c mod 16)) "")))
  else String ch "".

Fixpoint quote_bytes (s : string) : string :=
  match s with
  | EmptyString => ""
  | String ch rest => quote_byte ch +:+ quote_bytes rest
  end.

Definition Quote (s : string) : string :=
  String double_quote (quote_bytes s +:+ String double_quote "").

End strconv.

(** ** Package client: [graffiti/etcd/client/client.go] *)

Module client.
Import GoInt strconv.

(** Go's [error] values met by the client: an error of the coordination
    store's client library, or a [*strconv.NumError]. A nil error is
    [None] of [option error]. *)
Inductive error :=
| EtcdError (msg : string)
| ParseError (e : NumError).

Definition Error (e : error) : string :=
  match e with
  | EtcdError msg => msg
  | ParseError e =>
      "strconv." +:+ Func e +:+ ": parsing " +:+ Quote (Num e) +:+
      match Err_ e with
      | ErrSyntax => ": invalid syntax"
      | ErrRange => ": value out of range"
      end
  end.

(** The response of the store: [resp.Node.Value] is what [GetInt64] reads. *)
Record Node := { Key : string; Value : string }.
Record Response := { Node_ : Node }.

(** The world around the client. The coordination store is an external
    collaborator (the [etcd.KeysAPI] interface): a key space, and a fault
    schedule that says which requests, numbered in arrival order, it
    rejects and with what message. [now] is the wall clock in seconds
    since the epoch. Time passes while the store serves a request, and a
    sleep lasts at least as long as asked: [latency n] is the number of
    seconds by which the clock moves during request [n], and
    [oversleep n] the number of seconds by which the [n]-th sleep exceeds
    its duration. [slept] lists the durations asked of [time.Sleep], and
    [logged] the lines given to the logger. *)
Record Env := {
  kv : gmap string string;
  faults : nat -> option string;
  latency : nat -> nat;
  oversleep : nat -> nat;
  requests : nat;
  now : Z;
  slept : list Z;
  logged : list string
}.

(** A call of the store returns a response and a nil error, or no
    response and an error. *)
Inductive reply :=
| Ok (resp : Response)
| Fail (err : error).

(** The store has received one more request. *)
Definition received (e : Env) : Env :=
  {| kv := kv e; faults := faults e;
     latency := latency e; oversleep := oversleep e;
     requests := S (requests e);
     now := now e + Z.of_nat (latency e (requests e));
     slept := slept e; logged := logged e |}.

Definition write (key value : string) (e : Env) : Env :=
  {| kv := <[key := value]> (kv e); faults := faults e;
     latency := latency e; oversleep := oversleep e;
     requests := requests e;
     now := now e; slept := slept e; logged := logged e |}.

(** [KeysAPI.Get(ctx, key, nil)] *)
Definition KeysAPI_Get (key : string) (e : Env) : reply * Env :=
  match faults e (requests e) with
  | Some msg => (Fail (EtcdError msg), received e)
  | None =>
      match kv e !! key with
      | Some v => (Ok {| Node_ := {| Key := key; Value := v |} |}, received e)
      | None => (Fail (EtcdError ("100: Key not found (" +:+ key +:+ ")")), received e)
      end
  end.

(** [KeysAPI.Set(ctx, key, value, nil)] *)
Definition KeysAPI_Set (key value : string) (e : Env) : reply * Env :=
  match faults e (requests e) with
  | Some msg => (Fail (EtcdError msg), received e)
  | None => (Ok {| Node_ := {| Key := key; Value := value |} |}, received (write key value e))
  end.

(** [time.Now().Unix()] *)
Definition time_Now_Unix (e : Env) : Z := now e.

(** [time.Sleep(d)], [d] in seconds: the caller is paused for at least
    [d]. *)
Definition time_Sleep (d : Z) (e : Env) : Env :=
  {| kv := kv e; faults := faults e;
     latency := latency e; oversleep := oversleep e;
     requests := requests e;
     now := now e + d + Z.of_nat (oversleep e (length (slept e)));
     slept := slept e ++ [d]; logged := logged e |}.

Definition Second : Z := 1.

(** [logger.Errorf] *)
Definition logger_Errorf (line : string) (e : Env) : Env :=
  {| kv := kv e; faults := faults e;
     latency := latency e; oversleep := oversleep e;
     requests := requests e;
     now := now e; slept := slept e; logged := logged e ++ [line] |}.

(** Client describes a ETCD configuration client. *)
Record Client := { id : string }.

(** GetInt64 returns an int64 value from the configuration key. *)
Definition GetInt64 (client : Client) (key : string) (e : Env)
  : (Z * option error) * Env :=
  match KeysAPI_Get key e with
  | (Fail err, e) => ((0, Some err), e)
  | (Ok resp, e) =>
      let '(i, perr) := ParseInt (Value (Node_ resp)) in
      ((i, option_map ParseError perr), e)
  end.

(** SetInt64 set an int64 value to the configuration key. *)
Definition SetInt64 (client : Client) (key : string) (value : Z) (e : Env)
  : option error * Env :=
  match KeysAPI_Set key (FormatInt value) e with
  | (Fail err, e) => (Some err, e)
  | (Ok _, e) => (None, e)
  end.

Definition start_time_key (client : Client) : string :=
  "/client:" +:+ id client +:+ "/start-time".

(** Start the client: the [for { ... }] loop that waits for etcd to be
    ready. [fuel] bounds the number of iterations observed; [None] means
    that the loop is still running when the fuel is spent. The Go function
    has no result, so there is no error to return. *)
Fixpoint Start (fuel : nat) (client : Client) (e : Env) : option Env :=
  match fuel with
  | O => None
  | S fuel =>
      match SetInt64 client (start_time_key client) (time_Now_Unix e) e with
      | (Some err, e) =>
          let e := logger_Errorf ("Etcd server not ready: " +:+ Error err) e in
          let e := time_Sleep Second e in
          Start fuel client e
      | (None, e) => Some e
      end
  end.

End client.

(** ** Package graph, as far as the forwarder uses it *)

Module graph.

Definition Identifier := string.

(** Modelled from the spec: the declarations of the graph package are not
    part of the two source files. A graph element is "identified by an
    immutable ID, carrying UpdatedAt (timestamp) and Revision"; what else
    it carries is its metadata; an edge also names its two end points. *)
Module Node.
Record t := {
  ID : Identifier;
  UpdatedAt : Z;
  Revision : Z;
  Metadata : list (string * string)
}.
End Node.

Module Edge.
Record t := {
  ID : Identifier;
  UpdatedAt : Z;
  Revision : Z;
  Parent : Identifier;
  Child : Identifier;
  Metadata : list (string * string)
}.
End Edge.

(** Modelled from the spec: PartiallyUpdatedOp, "a sequence of field-level
    operations describing one incremental mutation". *)
Inductive PartiallyUpdatedOpType :=
| PartiallyUpdatedAddOpType
| PartiallyUpdatedDelOpType.

Record PartiallyUpdatedOp := {
  Type_ : PartiallyUpdatedOpType;
  Key : string;
  Value : string
}.

(** Modelled from the spec: "GraphElement (Node | Edge)", and the
    "complete ordered collection of GraphElements" that a snapshot is. *)
Inductive GraphElement :=
| NodeElement (n : Node.t)
| EdgeElement (e : Edge.t).

Definition Elements := list GraphElement.

(** Modelled from the spec: the graph type is declared outside the two
    source files. It holds its elements, exposes "a shared read/write
    lock" ([readers] counts the read holds, [writer] is the exclusive
    hold) and knows whether the forwarder listens to its events. *)
Record Graph := {
  elements : Elements;
  listening : bool;
  readers : nat;
  writer : bool
}.

End graph.

(** ** Package messages *)

Module messages.

(** Modelled from the spec: the messages package is not part of the two
    source files. A message "carries a type tag (one of the six table
    entries or a full-sync tag) and a typed payload"; the names of the
    tags and of the fields are those the forwarder writes. *)
Inductive MsgType :=
| SyncMsgType
| NodeAddedMsgType
| NodeDeletedMsgType
| NodePartiallyUpdatedMsgType
| EdgeAddedMsgType
| EdgeDeletedMsgType
| EdgePartiallyUpdatedMsgType.

Record SyncMsg := { Elements : graph.Elements }.

Record PartiallyUpdatedMsg := {
  ID : graph.Identifier;
  UpdatedAt : Z;
  Revision : Z;
  Ops : list graph.PartiallyUpdatedOp
}.

(** The values the forwarder passes as the object of a message. *)
Inductive Obj :=
| ObjSync (m : SyncMsg)
| ObjPartiallyUpdated (m : PartiallyUpdatedMsg)
| ObjNode (n : graph.Node.t)
| ObjEdge (e : graph.Edge.t).

Record StructMessage := { Type_ : MsgType; Obj_ : Obj }.

Definition NewStructMessage (t : MsgType) (v : Obj) : StructMessage :=
  {| Type_ := t; Obj_ := v |}.

End messages.

(** ** Package websocket: speakers *)

Module ws.

(** Modelled from the spec: the Speaker interface of the websocket package
    is not part of the two source files. A speaker is "a handle to the
    channel toward one remote peer", which answers [GetAddrPort]. *)
Record Speaker := { Addr : string; Port : Z }.

Definition GetAddrPort (c : Speaker) : string * Z := (Addr c, Port c).

End ws.

(** ** Package forwarder: [graffiti/forwarder/forwarder.go] *)

Module forwarder.
Import graph messages ws.

(** *** What the forwarder calls

    A forwarder holds three references: [t.masterElection], [t.graph] and
    [t.logger]. Everything it does is a call on one of them, or [os.Exit].
    [Call] lists these calls and [Resp] gives the type of what each one
    returns. *)
Inductive Call :=
| logger_Infof (line : string)
| logger_Warning (line : string)
| graph_RLock
| graph_RUnlock
| graph_Elements
| graph_AddEventListener
| graph_RemoveEventListener
| masterElection_SendMessageToMaster (m : StructMessage)
| masterElection_GetMaster
| os_Exit (code : Z).

Definition Resp (c : Call) : Type :=
  match c with
  | graph_Elements => graph.Elements
  | masterElection_GetMaster => option Speaker
  | os_Exit _ => Empty_set
  | _ => unit
  end.

(** A method body is a tree of calls: each call carries the rest of the
    body, which may use what the call returned. *)
Inductive Prog (A : Type) : Type :=
| Ret (a : A)
| Do (c : Call) (k : Resp c -> Prog A).
Arguments Ret {A} a.
Arguments Do {A} c k.

Fixpoint bind {A B : Type} (f : A -> Prog B) (p : Prog A) : Prog B :=
  match p with
  | Ret a => f a
  | Do c k => Do c (fun x => bind f (k x))
  end.

#[export] Instance Prog_ret : MRet Prog := @Ret.
#[export] Instance Prog_bind : MBind Prog := @bind.

Definition call (c : Call) : Prog (Resp c) := Do c Ret.

(** *** The methods of [Forwarder] *)

Definition triggerResync : Prog unit :=
  call (logger_Infof "Start a re-sync") ;;
  (* re-add all the nodes and edges *)
  elements ← call graph_Elements ;
  let msg := {| Elements := elements |} in
  call (masterElection_SendMessageToMaster (NewStructMessage SyncMsgType (ObjSync msg))).

(** OnNewMaster is called by the master election mechanism when a new
    master is elected. In such case a "Re-sync" is triggered in order to
    be in sync with the new master. A nil speaker is [None]. *)
Definition OnNewMaster (c : option Speaker) : Prog unit :=
  match c with
  | None =>
      call (logger_Warning "Lost connection to master") ;;
      (* do not forward message before re-sync *)
      call graph_RemoveEventListener ;;
      x ← call (os_Exit 1) ;
      match x : Empty_set with end
  | Some c =>
      let '(addr, port) := GetAddrPort c in
      call (logger_Infof ("Using " +:+ addr +:+ ":" +:+ strconv.FormatInt port +:+
                          " as master of topology forwarder")) ;;
      call graph_RLock ;;
      triggerResync ;;
      (* synced can now listen the graph *)
      call graph_AddEventListener ;;
      call graph_RUnlock
  end.

(** OnNodeUpdated graph node updated event. *)
Definition OnNodeUpdated (n : Node.t) (ops : list PartiallyUpdatedOp) : Prog unit :=
  call (masterElection_SendMessageToMaster
          (NewStructMessage NodePartiallyUpdatedMsgType
             (ObjPartiallyUpdated
                {| ID := Node.ID n;
                   UpdatedAt := Node.UpdatedAt n;
                   Revision := Node.Revision n;
                   Ops := ops |}))).

(** OnNodeAdded graph node added event. *)
Definition OnNodeAdded (n : Node.t) : Prog unit :=
  call (masterElection_SendMessageToMaster (NewStructMessage NodeAddedMsgType (ObjNode n))).

(** OnNodeDeleted graph node deleted event. *)
Definition OnNodeDeleted (n : Node.t) : Prog unit :=
  call (masterElection_SendMessageToMaster (NewStructMessage NodeDeletedMsgType (ObjNode n))).

(** OnEdgeUpdated graph edge updated event. *)
Definition OnEdgeUpdated (e : Edge.t) (ops : list PartiallyUpdatedOp) : Prog unit :=
  call (masterElection_SendMessageToMaster
          (NewStructMessage EdgePartiallyUpdatedMsgType
             (ObjPartiallyUpdated
                {| ID := Edge.ID e;
                   UpdatedAt := Edge.UpdatedAt e;
                   Revision := Edge.Revision e;
                   Ops := ops |}))).

(** OnEdgeAdded graph edge added event. *)
Definition OnEdgeAdded (e : Edge.t) : Prog unit :=
  call (masterElection_SendMessageToMaster (NewStructMessage EdgeAddedMsgType (ObjEdge e))).

(** OnEdgeDeleted graph edge deleted event. *)
Definition OnEdgeDeleted (e : Edge.t) : Prog unit :=
  call (masterElection_SendMessageToMaster (NewStructMessage EdgeDeletedMsgType (ObjEdge e))).

(** GetMaster returns the current analyzer the agent is sending its events to. *)
Definition GetMaster : Prog (option Speaker) :=
  call masterElection_GetMaster.

(** *** The objects behind the calls *)

Inductive Level := INFO | WARNING.

(** The world a forwarder runs in: the graph it is bound to, the master
    known to its master election, the messages handed to the channel of
    each speaker, and the lines given to the logger. *)
Record World := {
  g : Graph;
  master : option Speaker;
  outbox : list (Speaker * StructMessage);
  log : list (Level * string)
}.

Definition with_graph (w : World) (g' : Graph) : World :=
  {| g := g'; master := master w; outbox := outbox w; log := log w |}.

Definition with_log (w : World) (l : Level) (line : string) : World :=
  {| g := g w; master := master w; outbox := outbox w; log := log w ++ [(l, line)] |}.

(** What a call does: it returns, or cannot proceed yet, or ends the
    process with an exit status. *)
Inductive Outcome (X : Type) :=
| Done (x : X) (w : World)
| Blocked
| Halt (code : Z) (w : World).
Arguments Done {X} x w.
Arguments Blocked {X}.
Arguments Halt {X} code w.

(** Modelled from the spec: [Graph.RLock] and [Graph.RUnlock] of the graph
    package, the shared mode of "a shared read/write lock": a read hold
    is granted unless the exclusive hold is taken. Releasing a read hold
    that nobody has is the runtime's fatal error. *)
Definition RLock (gr : Graph) : option Graph :=
  if writer gr then None
  else Some {| elements := elements gr; listening := listening gr;
               readers := S (readers gr); writer := writer gr |}.

Definition RUnlock (gr : Graph) : option Graph :=
  match readers gr with
  | O => None
  | S n => Some {| elements := elements gr; listening := listening gr;
                   readers := n; writer := writer gr |}
  end.

(** Modelled from the spec: [Graph.AddEventListener] and
    [Graph.RemoveEventListener] of the graph package: the forwarder
    "begins listening to graph events", respectively "stops listening". *)
Definition AddEventListener (gr : Graph) : Graph :=
  {| elements := elements gr; listening := true;
     readers := readers gr; writer := writer gr |}.

Definition RemoveEventListener (gr : Graph) : Graph :=
  {| elements := elements gr; listening := false;
     readers := readers gr; writer := writer gr |}.

(** Modelled from the spec: [MasterElection.SendMessageToMaster] of the
    websocket package: the message is sent "to the current master only",
    handed to that speaker's channel without waiting; with no master
    there is nobody to send to. *)
Definition SendMessageToMaster (m : StructMessage) (w : World) : World :=
  match master w with
  | Some p => {| g := g w; master := master w;
                 outbox := outbox w ++ [(p, m)]; log := log w |}
  | None => w
  end.

Definition exec (c : Call) (w : World) : Outcome (Resp c) :=
  match c as c0 return Outcome (Resp c0) with
  | logger_Infof line => Done tt (with_log w INFO line)
  | logger_Warning line => Done tt (with_log w WARNING line)
  | graph_RLock =>
      match RLock (g w) with
      | Some g' => Done tt (with_graph w g')
      | None => Blocked
      end
  | graph_RUnlock =>
      match RUnlock (g w) with
      | Some g' => Done tt (with_graph w g')
      | None => Halt 2 w
      end
  | graph_Elements => Done (elements (g w)) w
  | graph_AddEventListener => Done tt (with_graph w (AddEventListener (g w)))
  | graph_RemoveEventListener => Done tt (with_graph w (RemoveEventListener (g w)))
  | masterElection_SendMessageToMaster m => Done tt (SendMessageToMaster m w)
  | masterElection_GetMaster => Done (master w) w
  | os_Exit code => Halt code w
  end.

(** *** Running a method alone

    The result of running a method body to its end with nothing else
    touching the world, and the calls it made on the way, in order. *)
Inductive Result (A : Type) :=
| Returned (a : A) (w : World)
| Waiting (w : World)
| Exited (code : Z) (w : World).
Arguments Returned {A} a w.
Arguments Waiting {A} w.
Arguments Exited {A} code w.

Fixpoint run {A : Type} (p : Prog A) (w : World) : list Call * Result A :=
  match p with
  | Ret a => ([], Returned a w)
  | Do c k =>
      match exec c w with
      | Done x w' => let '(cs, r) := run (k x) w' in (c :: cs, r)
      | Blocked => ([], Waiting w)
      | Halt code w' => ([c], Exited code w')
      end
  end.

Definition calls {A : Type} (p : Prog A) (w : World) : list Call := fst (run p w).
Definition result {A : Type} (p : Prog A) (w : World) : Result A := snd (run p w).

(** *** Running a method while the graph is in use

    Modelled from the spec: the users of the graph other than the
    forwarder, which live outside the two source files. They take and
    release read holds of the "shared read/write lock", and a mutation of
    the graph is made under its exclusive hold, the mode that the read
    hold of the forwarder excludes. *)
Inductive EnvAction :=
| EnvRLock
| EnvRUnlock
| EnvLock
| EnvMutate (els : graph.Elements)
| EnvUnlock.

Inductive Label :=
| Fwd (c : Call)
| Env (a : EnvAction).

(** The graph together with the number of read holds that belong to the
    other threads. *)
Definition env_step (a : EnvAction) (st : Graph * nat) : option (Graph * nat) :=
  let '(gr, n) := st in
  match a with
  | EnvRLock =>
      match RLock gr with
      | Some gr' => Some (gr', S n)
      | None => None
      end
  | EnvRUnlock =>
      match n, RUnlock gr with
      | S n', Some gr' => Some (gr', n')
      | _, _ => None
      end
  | EnvLock =>
      if writer gr then None
      else match readers gr with
           | O => Some ({| elements := elements gr; listening := listening gr;
                           readers := O; writer := true |}, n)
           | S _ => None
           end
  | EnvMutate els =>
      if writer gr
      then Some ({| elements := els; listening := listening gr;
                    readers := readers gr; writer := true |}, n)
      else None
  | EnvUnlock =>
      if writer gr
      then Some ({| elements := elements gr; listening := listening gr;
                    readers := readers gr; writer := false |}, n)
      else None
  end.

Record Config := {
  prog : Prog unit;
  world : World;
  envReaders : nat
}.

(** One step of the forwarder: the next call of its method body, when
    that call returns. *)
Definition fwd_step (cfg : Config) : option (Call * Config) :=
  match prog cfg with
  | Ret _ => None
  | Do c k =>
      match exec c (world cfg) with
      | Done x w' => Some (c, {| prog := k x; world := w'; envReaders := envReaders cfg |})
      | _ => None
      end
  end.

Inductive step : Config -> Label -> Config -> Prop :=
| step_fwd cfg c cfg' :
    fwd_step cfg = Some (c, cfg') ->
    step cfg (Fwd c) cfg'
| step_env cfg a g' n' :
    env_step a (g (world cfg), envReaders cfg) = Some (g', n') ->
    step cfg (Env a)
         {| prog := prog cfg; world := with_graph (world cfg) g'; envReaders := n' |}.

Inductive steps : Config -> list Label -> Config -> Prop :=
| steps_nil cfg : steps cfg [] cfg
| steps_cons cfg l cfg1 ls cfg2 :
    step cfg l cfg1 -> steps cfg1 ls cfg2 -> steps cfg (l :: ls) cfg2.

(** The calls of the forwarder in an interleaving, in order. *)
Fixpoint fwd_calls (ls : list Label) : list Call :=
  match ls with
  | [] => []
  | Fwd c :: ls => c :: fwd_calls ls
  | Env _ :: ls => fwd_calls ls
  end.

(** [undisturbed held ls]: in [ls], no other thread takes the exclusive
    hold or mutates the graph between a [graph_RLock] and the following
    [graph_RUnlock] of the forwarder; [held] says whether the forwarder
    has a read hold when [ls] starts. *)
Fixpoint undisturbed (held : bool) (ls : list Label) : bool :=
  match ls with
  | [] => true
  | Fwd graph_RLock :: ls => undisturbed true ls
  | Fwd graph_RUnlock :: ls => undisturbed false ls
  | Fwd _ :: ls => undisturbed held ls
  | Env (EnvMutate _) :: ls => negb held && undisturbed held ls
  | Env EnvLock :: ls => negb held && undisturbed held ls
  | Env _ :: ls => undisturbed held ls
  end.

(** What the other threads do to the graph in a row of actions. *)
Fixpoint env_run (acts : list EnvAction) (st : Graph * nat) : option (Graph * nat) :=
  match acts with
  | [] => Some st
  | a :: acts =>
      match env_step a st with
      | Some st' => env_run acts st'
      | None => None
      end
  end.

(** The next call of the forwarder would end the process. *)
Definition halts_next (cfg : Config) : bool :=
  match prog cfg with
  | Ret _ => false
  | Do c _ =>
      match exec c (world cfg) with
      | Halt _ _ => true
      | _ => false
      end
  end.

(** The lock of a graph is in a state that exists: the exclusive hold
    excludes every read hold, and the read holds are those of the other
    threads plus the forwarder's own, if it has one. *)
Definition lock_ok (held : bool) (gr : Graph) (n : nat) : Prop :=
  readers gr = ((if held then 1 else 0) + n)%nat /\
  (writer gr = true -> readers gr = O).

End forwarder.
(** ** Decimal numerals, as the specification speaks of them *)

Module numerals.
Import GoInt.

Definition is_digit (c : ascii) : bool := (48 <=? byte c) && (byte c <=? 57).

Fixpoint all_digits (s : string) : bool :=
  match s with
  | EmptyString => true
  | String c rest => is_digit c && all_digits rest
  end.

(** The number a sequence of digits denotes after the digits read so far
    gave [acc]. *)
Fixpoint digits_value (acc : Z) (s : string) : Z :=
  match s with
  | EmptyString => acc
  | String c rest => digits_value (10 * acc + (byte c - 48)) rest
  end.

(** [numeral s z]: the string [s] is a decimal integer and [z] is the
    integer it denotes: one or more digits, after an optional sign. *)
Inductive numeral : string -> Z -> Prop :=
| numeral_digits c rest :
    all_digits (String c rest) = true ->
    numeral (String c rest) (digits_value 0 (String c rest))
| numeral_plus c rest :
    all_digits (String c rest) = true ->
    numeral (String "+" (String c rest)) (digits_value 0 (String c rest))
| numeral_minus c rest :
    all_digits (String c rest) = true ->
    numeral (String "-" (String c rest)) (- digits_value 0 (String c rest)).

End numerals.

(** ** The client, as the specification speaks of it *)

Module client_spec.
Import GoInt strconv client.

(** The store answers its next request, and holds [value] under [key]. *)
Definition holds (e : Env) (key value : string) : Prop :=
  faults e (requests e) = None /\ kv e !! key = Some value.

(** The store rejects its next [k] requests and accepts the one after. *)
Definition accepts_after (e : Env) (k : nat) : Prop :=
  (forall j, (j < k)%nat -> faults e (requests e + j)%nat <> None) /\
  faults e (requests e + k)%nat = None.


(** Sample worlds. *)
Definition a_client : Client := {| id := "agent-1" |}.

Definition store_with (value : string) (down : nat) : Env :=
  {| kv := {[ "/n" := value ]};
     faults := fun n => if (n <? down)%nat then Some "connection refused" else None;
     latency := fun n => S n;
     oversleep := fun n => n;
     requests := 0;
     now := 1700000000;
     slept := [];
     logged := [] |}.

End client_spec.

(** ** The forwarder, as the specification speaks of it *)

Module forwarder_spec.
Import graph messages ws forwarder.

(** The full-snapshot message for a collection of elements. *)
Definition sync_message (els : graph.Elements) : StructMessage :=
  {| Type_ := SyncMsgType; Obj_ := ObjSync {| Elements := els |} |}.

(** The resync sequence for a master [c], with [els] the snapshot taken:
    under one read hold of the graph's lock, (1) take a snapshot,
    (2) send the SyncMsg, (3) start listening. *)
Definition resync_calls (c : Speaker) (els : graph.Elements) : list Call :=
  [ logger_Infof ("Using " +:+ Addr c +:+ ":" +:+ strconv.FormatInt (Port c) +:+
                  " as master of topology forwarder");
    graph_RLock;
    logger_Infof "Start a re-sync";
    graph_Elements;
    masterElection_SendMessageToMaster (sync_message els);
    graph_AddEventListener;
    graph_RUnlock ].

(** The messages among the calls of a method, in order. *)
Fixpoint sent_messages (cs : list Call) : list StructMessage :=
  match cs with
  | [] => []
  | masterElection_SendMessageToMaster m :: cs => m :: sent_messages cs
  | _ :: cs => sent_messages cs
  end.

(** A method "stops listening first": it unregisters the listener before
    it sends anything. *)
Fixpoint stops_listening_first (cs : list Call) : bool :=
  match cs with
  | [] => false
  | graph_RemoveEventListener :: _ => true
  | masterElection_SendMessageToMaster _ :: _ => false
  | _ :: cs => stops_listening_first cs
  end.

(** The graph mutation events a listener is told of. *)
Inductive GraphEvent :=
| NodeUpdated (n : Node.t) (ops : list PartiallyUpdatedOp)
| NodeAdded (n : Node.t)
| NodeDeleted (n : Node.t)
| EdgeUpdated (e : Edge.t) (ops : list PartiallyUpdatedOp)
| EdgeAdded (e : Edge.t)
| EdgeDeleted (e : Edge.t).

(** Delivery of an event to the forwarder: the callback of the
    EventListener interface that the graph invokes for it. *)
Definition deliver (ev : GraphEvent) : Prog unit :=
  match ev with
  | NodeUpdated n ops => OnNodeUpdated n ops
  | NodeAdded n => OnNodeAdded n
  | NodeDeleted n => OnNodeDeleted n
  | EdgeUpdated e ops => OnEdgeUpdated e ops
  | EdgeAdded e => OnEdgeAdded e
  | EdgeDeleted e => OnEdgeDeleted e
  end.

(** The event-to-message table of the specification. *)
Definition table_type (ev : GraphEvent) : MsgType :=
  match ev with
  | NodeAdded _ => NodeAddedMsgType
  | NodeDeleted _ => NodeDeletedMsgType
  | NodeUpdated _ _ => NodePartiallyUpdatedMsgType
  | EdgeAdded _ => EdgeAddedMsgType
  | EdgeDeleted _ => EdgeDeletedMsgType
  | EdgeUpdated _ _ => EdgePartiallyUpdatedMsgType
  end.

Definition table_payload (ev : GraphEvent) : Obj :=
  match ev with
  | NodeAdded n | NodeDeleted n => ObjNode n
  | EdgeAdded e | EdgeDeleted e => ObjEdge e
  | NodeUpdated n ops =>
      ObjPartiallyUpdated
        {| ID := Node.ID n; UpdatedAt := Node.UpdatedAt n;
           Revision := Node.Revision n; Ops := ops |}
  | EdgeUpdated e ops =>
      ObjPartiallyUpdated
        {| ID := Edge.ID e; UpdatedAt := Edge.UpdatedAt e;
           Revision := Edge.Revision e; Ops := ops |}
  end.

(** A call that touches the graph. *)
Definition is_graph_call (c : Call) : bool :=
  match c with
  | graph_RLock | graph_RUnlock | graph_Elements
  | graph_AddEventListener | graph_RemoveEventListener => true
  | _ => false
  end.

(** The start of an interleaving: the forwarder enters [OnNewMaster]. *)
Definition on_new_master (c : Speaker) (w : World) (n : nat) : Config :=
  {| prog := OnNewMaster (Some c); world := w; envReaders := n |}.

(** Sample worlds. *)
Definition peer_P : Speaker := {| Addr := "10.0.0.1"; Port := 8082 |}.

Definition node_1 : Node.t :=
  {| Node.ID := "n1"; Node.UpdatedAt := 1700000000000; Node.Revision := 1;
     Node.Metadata := [("Name", "eth0")] |}.

Definition node_2 : Node.t :=
  {| Node.ID := "n2"; Node.UpdatedAt := 1700000000500; Node.Revision := 3;
     Node.Metadata := [("Name", "br0")] |}.

(** A forwarder that is Synced with [peer_P]: it listens to a graph of
    one node, whose lock is free. *)
Definition synced_world : World :=
  {| g := {| elements := [NodeElement node_1]; listening := true;
             readers := 0; writer := false |};
     master := Some peer_P;
     outbox := [];
     log := [] |}.

(** An interleaving of [OnNewMaster] with a mutation made before the
    forwarder takes its read hold, another reader, and a mutation made
    after the forwarder released its hold. *)
Definition sample_interleaving : list Label :=
  [ Env EnvLock;
    Env (EnvMutate [NodeElement node_1; NodeElement node_2]);
    Fwd (logger_Infof "Using 10.0.0.1:8082 as master of topology forwarder");
    Env EnvUnlock;
    Fwd graph_RLock;
    Env EnvRLock;
    Fwd (logger_Infof "Start a re-sync");
    Fwd graph_Elements;
    Fwd (masterElection_SendMessageToMaster
           (sync_message [NodeElement node_1; NodeElement node_2]));
    Fwd graph_AddEventListener;
    Env EnvRUnlock;
    Fwd graph_RUnlock;
    Env EnvLock;
    Env (EnvMutate []);
    Env EnvUnlock ].

End forwarder_spec.

(** ** Package client: construction of a client *)

Module client_new.
Import strconv client.

(** Client defaults. *)
Definition DefaultTimeout : Z := 5 * Second.
Definition DefaultPort : Z := 12379.
Definition DefaultServer : string := "127.0.0.1".

(** A logger of the logging package: the process-wide one that
    [logging.GetLogger()] returns, or one the caller made. *)
Inductive Logger :=
| GetLogger
| NamedLogger (name : string).

(** Opts describes the options of an etcd client. A nil logger is [None]. *)
Record Opts := {
  Servers : list string;
  Timeout : Z;
  Logger_ : option Logger
}.

(** [etcd.Config], as far as [NewClient] fills it. *)
Inductive CancelableTransport := DefaultTransport.

Record Config := {
  Endpoints : list string;
  Transport : CancelableTransport;
  HeaderTimeoutPerRequest : Z
}.

Section NewClient.

(** The client library: the type of its clients and [etcd.New], which
    returns a client or an error, here the error's message. *)
Variable EtcdClient : Type.
Variable etcd_New : Config -> EtcdClient + string.

Inductive KeysAPI := NewKeysAPI (c : EtcdClient).

(** The fields of the [Client] struct that [NewClient] fills beside [id]. *)
Record Connected := {
  self : Client;
  client_ : EtcdClient;
  KeysAPI_ : KeysAPI;
  logger : Logger
}.

(** NewClient creates a new ETCD client connection to ETCD servers. The
    two results are the [*Client], nil being [None], and the error. *)
Definition NewClient (id : string) (opts : Opts) : option Connected * option string :=
  let opts :=
    if Timeout opts =? 0
    then {| Servers := Servers opts; Timeout := DefaultTimeout; Logger_ := Logger_ opts |}
    else opts in
  let opts :=
    if (length (Servers opts) =? 0)%nat
    then {| Servers := [DefaultServer +:+ ":" +:+ FormatInt DefaultPort];
            Timeout := Timeout opts; Logger_ := Logger_ opts |}
    else opts in
  let opts :=
    match Logger_ opts with
    | None => {| Servers := Servers opts; Timeout := Timeout opts; Logger_ := Some GetLogger |}
    | Some _ => opts
    end in
  let cfg := {| Endpoints := Servers opts;
                Transport := DefaultTransport;
                HeaderTimeoutPerRequest := Timeout opts |} in
  match etcd_New cfg with
  | inr err => (None, Some ("Failed to connect to etcd: " +:+ err))
  | inl client =>
      let kapi := NewKeysAPI client in
      (Some {| self := {| id := id |};
               client_ := client;
               KeysAPI_ := kapi;
               logger := match Logger_ opts with Some l => l | None => GetLogger end |},
       None)
  end.

End NewClient.

(** A client library for the examples: it refuses an endpoint list that
    is empty, and otherwise hands back the configuration as the client. *)
Definition sample_etcd_New (cfg : Config) : Config + string :=
  match Endpoints cfg with
  | [] => inr "client: no endpoints available"
  | _ => inl cfg
  end.

End client_new.

(** ** More notions for stating what the code does *)

Module more_spec.
Import GoInt strconv client graph messages ws forwarder forwarder_spec.

(** The messages of the store's next [k] rejections, in order. *)
Definition rejections (e : client.Env) (k : nat) : list string :=
  map (fun j => match faults e (requests e + j)%nat with
                | Some msg => msg
                | None => ""
                end)
      (seq 0 k).

(** What a message tells its receiver about a graph event: the whole
    element for an addition or a deletion; the identifier, the time, the
    revision and the operations for a partial update. *)
Inductive Delta :=
| DNodeAdded (n : Node.t)
| DNodeDeleted (n : Node.t)
| DNodeUpdated (id : Identifier) (updatedAt revision : Z) (ops : list PartiallyUpdatedOp)
| DEdgeAdded (e : Edge.t)
| DEdgeDeleted (e : Edge.t)
| DEdgeUpdated (id : Identifier) (updatedAt revision : Z) (ops : list PartiallyUpdatedOp).

Definition delta_of_event (ev : GraphEvent) : Delta :=
  match ev with
  | NodeAdded n => DNodeAdded n
  | NodeDeleted n => DNodeDeleted n
  | NodeUpdated n ops => DNodeUpdated (Node.ID n) (Node.UpdatedAt n) (Node.Revision n) ops
  | EdgeAdded e => DEdgeAdded e
  | EdgeDeleted e => DEdgeDeleted e
  | EdgeUpdated e ops => DEdgeUpdated (Edge.ID e) (Edge.UpdatedAt e) (Edge.Revision e) ops
  end.

(** The graph delivers a row of events, one callback after the other. *)
Fixpoint deliver_all (evs : list GraphEvent) : Prog unit :=
  match evs with
  | [] => Ret tt
  | ev :: evs => deliver ev ;; deliver_all evs
  end.

(** The first line [OnNewMaster] logs for a speaker. *)
Definition using_line (c : Speaker) : string :=
  "Using " +:+ Addr c +:+ ":" +:+ FormatInt (Port c) +:+ " as master of topology forwarder".

(** A node like [node_1] with other metadata. *)
Definition node_1_renamed : Node.t :=
  {| Node.ID := "n1"; Node.UpdatedAt := 1700000000000; Node.Revision := 1;
     Node.Metadata := [("Name", "eth1")] |}.

End more_spec.

(** ** The snapshot of the graph, left open *)

Module any_elements.
Import graph messages ws forwarder forwarder_spec.

(** Modelled from the spec: [Graph.Elements] belongs to the graph package,
    which is not part of the two source files; the spec has it return "the
    complete ordered collection of GraphElements at a point in time". What
    it returns is left open here: [Elements_ w] is the collection that the
    call returns in the world [w], and may depend on anything in that
    world, its log included, so also on how many calls came before. Every
    other call is as in [exec]. *)
Definition exec_with (Elements_ : World -> graph.Elements) (c : Call) (w : World)
  : Outcome (Resp c) :=
  match c as c0 return Outcome (Resp c0) with
  | graph_Elements => Done (Elements_ w) w
  | c0 => exec c0 w
  end.

Fixpoint run_with {A : Type} (Elements_ : World -> graph.Elements) (p : Prog A) (w : World)
  : list Call * Result A :=
  match p with
  | Ret a => ([], Returned a w)
  | Do c k =>
      match exec_with Elements_ c w with
      | Done x w' => let '(cs, r) := run_with Elements_ (k x) w' in (c :: cs, r)
      | Blocked => ([], Waiting w)
      | Halt code w' => ([c], Exited code w')
      end
  end.



Definition in_changing_order (w : World) : graph.Elements :=
  if Nat.even (length (log w)) then elements (g w) else rev (elements (g w)).

Definition two_node_world : World :=
  {| g := {| elements := [NodeElement node_1; NodeElement node_2]; listening := true;
             readers := 0; writer := false |};
     master := Some peer_P;
     outbox := [];
     log := [] |}.

End any_elements.

(** ** Facts about strconv *)

Module strconv_facts.
Import GoInt strconv numerals.

Lemma maxUint64_eq : maxUint64 = 18446744073709551615.
Proof. reflexivity. Qed.

Lemma is_digit_range c : is_digit c = true -> 48 <= byte c <= 57.
Proof. unfold is_digit. intros H. apply andb_true_iff in H. lia. Qed.

Lemma digits_value_mono s : forall a b,
  all_digits s = true -> 0 <= a <= b -> a <= digits_value a s <= digits_value b s.
Proof.
  induction s as [|c rest IH]; intros a b Hd Hab; simpl in *; [lia|].
  apply andb_true_iff in Hd as [Hc Hr]. apply is_digit_range in Hc.
  pose proof (IH (10 * a + (byte c - 48)) (10 * b + (byte c - 48)) Hr) as H1.
  lia.
Qed.

Lemma digits_value_ge s a :
  all_digits s = true -> 0 <= a -> a <= digits_value a s.
Proof. intros Hd Ha. apply (digits_value_mono s a a Hd). lia. Qed.

(** What the loop of [ParseUint] returns, case by case. *)
Lemma ParseUint_loop_cases s0 s : forall n,
  0 <= n <= maxUint64 ->
  match ParseUint_loop s0 (maxUint64 / 10 + 1) maxUint64 s n with
  | (v, None) => all_digits s = true /\ v = digits_value n s /\ 0 <= v <= maxUint64
  | (v, Some e) =>
      (e = syntaxError "ParseUint" s0 /\ v = 0 /\ all_digits s = false) \/
      (e = rangeError "ParseUint" s0 /\ v = maxUint64 /\
       (all_digits s = true -> maxUint64 < digits_value n s))
  end.
Proof.
  induction s as [|c rest IH]; intros n Hn; simpl.
  - repeat split; lia.
  - unfold is_digit.
    destruct ((48 <=? byte c) && (byte c <=? 57)) eqn:Hdig.
    + assert (Hc : 48 <= byte c <= 57) by (apply andb_true_iff in Hdig; lia).
      replace (base <=? byte c - 48) with false by (unfold base; lia).
      simpl andb.
      destruct (maxUint64 / 10 + 1 <=? n) eqn:Hcut.
      * right. repeat split. intros Hr.
        pose proof (digits_value_ge rest (10 * n + (byte c - 48)) Hr).
        rewrite maxUint64_eq in *.
        change (18446744073709551615 / 10 + 1) with 1844674407370955162 in Hcut.
        lia.
      * rewrite maxUint64_eq in Hcut, Hn.
        change (18446744073709551615 / 10 + 1) with 1844674407370955162 in Hcut.
        assert (Hm : uint64 (n * base) = n * 10).
        { unfold uint64, base. apply Z.mod_small. lia. }
        rewrite Hm.
        destruct (Z_lt_ge_dec (n * 10 + (byte c - 48)) (2 ^ 64)) as [Hlt|Hge].
        -- assert (Hm1 : uint64 (n * 10 + (byte c - 48)) = n * 10 + (byte c - 48)).
           { unfold uint64. apply Z.mod_small. lia. }
           rewrite Hm1.
           replace (n * 10 + (byte c - 48) <? n * 10) with false by lia.
           replace (maxUint64 <? n * 10 + (byte c - 48)) with false
             by (rewrite maxUint64_eq; lia).
           simpl orb.
           specialize (IH (n * 10 + (byte c - 48))).
           replace (10 * n + (byte c - 48)) with (n * 10 + (byte c - 48)) by lia.
           apply IH. rewrite maxUint64_eq. lia.
        -- assert (Hm1 : uint64 (n * 10 + (byte c - 48)) = n * 10 + (byte c - 48) - 2 ^ 64).
           { unfold uint64. symmetry.
             apply (Z.mod_unique _ _ 1); lia. }
           rewrite Hm1.
           replace (n * 10 + (byte c - 48) - 2 ^ 64 <? n * 10) with true by lia.
           simpl orb. right. repeat split. intros Hr.
           pose proof (digits_value_ge rest (10 * n + (byte c - 48)) Hr).
           rewrite maxUint64_eq. lia.
    + simpl andb.
      destruct ((97 <=? lower (byte c)) && (lower (byte c) <=? 122)) eqn:Hlet.
      * assert (Hl : 97 <= lower (byte c)) by (apply andb_true_iff in Hlet; lia).
        replace (base <=? lower (byte c) - 97 + 10) with true by (unfold base; lia).
        left. repeat split.
      * left. repeat split.
Qed.

Lemma ParseUint_cases c rest :
  match ParseUint (String c rest) with
  | (v, None) =>
      all_digits (String c rest) = true /\ v = digits_value 0 (String c rest) /\
      0 <= v <= maxUint64
  | (v, Some e) =>
      (e = syntaxError "ParseUint" (String c rest) /\ v = 0 /\
       all_digits (String c rest) = false) \/
      (e = rangeError "ParseUint" (String c rest) /\ v = maxUint64 /\
       (all_digits (String c rest) = true -> maxUint64 < digits_value 0 (String c rest)))
  end.
Proof.
  change (ParseUint (String c rest))
    with (ParseUint_loop (String c rest) (maxUint64 / 10 + 1) maxUint64 (String c rest) 0).
  apply ParseUint_loop_cases. rewrite maxUint64_eq. lia.
Qed.

Lemma int64_small z : - 2 ^ 63 <= z < 2 ^ 63 -> int64 z = z.
Proof. intros H. unfold int64. rewrite Z.mod_small; lia. Qed.

Lemma digit_not_sign c :
  is_digit c = true -> Ascii.eqb c "+" = false /\ Ascii.eqb c "-" = false.
Proof.
  intros H. split.
  - destruct (Ascii.eqb_spec c "+") as [->|]; [discriminate H | reflexivity].
  - destruct (Ascii.eqb_spec c "-") as [->|]; [discriminate H | reflexivity].
Qed.

Ltac int_cases :=
  repeat match goal with
    | |- context [?a <? ?b] => destruct (Z.ltb_spec a b); try lia
    | |- context [?a <=? ?b] => destruct (Z.leb_spec a b); try lia
    end;
  cbn [negb andb orb].

(** The clamped result of [ParseInt] on the numeral of [v]. *)
Lemma ParseInt_after_sign (neg : bool) s0 c rest :
  all_digits (String c rest) = true ->
  let v := digits_value 0 (String c rest) in
  (let '(un, err) := ParseUint (String c rest) in
   match err with
   | Some {| Err_ := ErrSyntax |} => (0, Some (syntaxError "ParseInt" s0))
   | _ =>
       let cutoff := uint64 (Z.shiftl 1 (bitSize - 1)) in
       if negb neg && (cutoff <=? un)
       then (int64 (cutoff - 1), Some (rangeError "ParseInt" s0))
       else if neg && (cutoff <? un)
       then (int64 (- int64 cutoff), Some (rangeError "ParseInt" s0))
       else
         let n := int64 un in
         let n := if neg then int64 (- n) else n in
         (n, None)
   end) =
  let z := if neg then - v else v in
  if z <? minInt64 then (minInt64, Some (rangeError "ParseInt" s0))
  else if maxInt64 <? z then (maxInt64, Some (rangeError "ParseInt" s0))
  else (z, None).
Proof.
  intros Hd v.
  pose proof (ParseUint_cases c rest) as HU.
  pose proof (digits_value_ge (String c rest) 0 Hd ltac:(lia)) as Hv0.
  fold v in HU, Hv0.
  cbv zeta.
  change (uint64 (Z.shiftl 1 (bitSize - 1))) with 9223372036854775808.
  change (int64 (9223372036854775808 - 1)) with 9223372036854775807.
  change (int64 (- int64 9223372036854775808)) with (-9223372036854775808).
  change minInt64 with (-9223372036854775808).
  change maxInt64 with 9223372036854775807.
  destruct (ParseUint (String c rest)) as [un [e|]].
  - destruct HU as [(_ & _ & Hnd)|(-> & -> & Hbig)]; [congruence|].
    specialize (Hbig Hd). rewrite maxUint64_eq in *.
    cbv beta iota delta [rangeError Err_].
    destruct neg; cbn [negb andb]; int_cases; reflexivity.
  - destruct HU as (_ & -> & Hr). rewrite maxUint64_eq in Hr.
    cbv beta iota.
    destruct neg; cbn [negb andb]; int_cases; try reflexivity; f_equal.
    + destruct (Z.eq_dec v 9223372036854775808) as [->|Hne]; [reflexivity|].
      rewrite (int64_small v) by (change (2 ^ 63) with 9223372036854775808; lia).
      apply int64_small. change (2 ^ 63) with 9223372036854775808. lia.
    + apply int64_small. change (2 ^ 63) with 9223372036854775808. lia.
Qed.

Example ParseInt_samples :
  ParseInt "123" = (123, None) /\
  ParseInt "+7" = (7, None) /\
  ParseInt "-9223372036854775808" = (minInt64, None) /\
  ParseInt "9223372036854775807" = (maxInt64, None) /\
  ParseInt "-9223372036854775809" = (minInt64, Some (rangeError "ParseInt" "-9223372036854775809")) /\
  ParseInt "" = (0, Some (syntaxError "ParseInt" "")) /\
  ParseInt "-" = (0, Some (syntaxError "ParseInt" "-")) /\
  ParseInt "12a" = (0, Some (syntaxError "ParseInt" "12a")) /\
  ParseInt " 12" = (0, Some (syntaxError "ParseInt" " 12")) /\
  ParseInt "1_000" = (0, Some (syntaxError "ParseInt" "1_000")).
Proof. repeat split; vm_compute; reflexivity. Qed.

Example FormatInt_samples :
  FormatInt 0 = "0" /\ FormatInt (-12) = "-12" /\ FormatInt 1700000000 = "1700000000" /\
  ParseInt (FormatInt minInt64) = (minInt64, None).
Proof. repeat split; vm_compute; reflexivity. Qed.

(** On a decimal integer, [ParseInt] returns it when it is an [int64],
    and the nearest [int64] with a range error when it is not. *)
Lemma ParseInt_numeral s v :
  numeral s v ->
  ParseInt s =
    if v <? minInt64 then (minInt64, Some (rangeError "ParseInt" s))
    else if maxInt64 <? v then (maxInt64, Some (rangeError "ParseInt" s))
    else (v, None).
Proof.
  intros Hn. destruct Hn as [c rest Hd|c rest Hd|c rest Hd].
  - assert (Hc : is_digit c = true) by (simpl in Hd; apply andb_true_iff in Hd; tauto).
    destruct (digit_not_sign c Hc) as [Hp Hm].
    unfold ParseInt. rewrite Hp, Hm.
    apply (ParseInt_after_sign false (String c rest) c rest Hd).
  - unfold ParseInt. change (Ascii.eqb "+" "+") with true. cbv iota.
    apply (ParseInt_after_sign false (String "+" (String c rest)) c rest Hd).
  - unfold ParseInt. change (Ascii.eqb "-" "+") with false.
    change (Ascii.eqb "-" "-") with true. cbv iota.
    apply (ParseInt_after_sign true (String "-" (String c rest)) c rest Hd).
Qed.

(** When [ParseInt] returns no error, its argument is a decimal integer. *)
Lemma ParseInt_no_error s z :
  ParseInt s = (z, None) -> exists v, numeral s v.
Proof.
  destruct s as [|ch rest]; [discriminate|].
  unfold ParseInt.
  assert (Hbody : forall neg c r,
    (let '(un, err) := ParseUint (String c r) in
     match err with
     | Some {| Err_ := ErrSyntax |} => (0, Some (syntaxError "ParseInt" (String ch rest)))
     | _ =>
       let cutoff := uint64 (Z.shiftl 1 (bitSize - 1)) in
       if negb neg && (cutoff <=? un)
       then (int64 (cutoff - 1), Some (rangeError "ParseInt" (String ch rest)))
       else if neg && (cutoff <? un)
       then (int64 (- int64 cutoff), Some (rangeError "ParseInt" (String ch rest)))
       else
         let n := int64 un in
         let n := if neg then int64 (- n) else n in
         (n, None)
     end) = (z, None) -> all_digits (String c r) = true).
  { intros neg c r. pose proof (ParseUint_cases c r) as HU.
    destruct (ParseUint (String c r)) as [un [e|]].
    - destruct HU as [(-> & _ & _)|(-> & -> & _)].
      + cbv beta iota zeta delta [syntaxError Err_]. discriminate.
      + cbv beta iota zeta delta [rangeError Err_].
        change (uint64 (Z.shiftl 1 (bitSize - 1))) with 9223372036854775808.
        rewrite maxUint64_eq.
        destruct neg; cbn [negb andb].
        * replace (9223372036854775808 <? 18446744073709551615) with true by lia.
          discriminate.
        * replace (9223372036854775808 <=? 18446744073709551615) with true by lia.
          discriminate.
    - intros _. tauto. }
  destruct (Ascii.eqb_spec ch "+") as [->|Hp].
  - destruct rest as [|c r].
    + cbv. discriminate.
    + intros H. apply Hbody in H. eexists. apply numeral_plus, H.
  - destruct (Ascii.eqb_spec ch "-") as [->|Hm].
    + destruct rest as [|c r].
      * cbv. discriminate.
      * intros H. apply Hbody in H. eexists. apply numeral_minus, H.
    + intros H. apply Hbody in H. eexists. apply numeral_digits, H.
Qed.

End strconv_facts.

(** ** Properties of the client *)

Module client_facts.
Import GoInt strconv numerals client client_spec strconv_facts.

Lemma GetInt64_holds cl key e s :
  holds e key s ->
  GetInt64 cl key e =
    (let '(i, perr) := ParseInt s in (i, option_map ParseError perr), received e).
Proof.
  intros [Hf Hk]. unfold GetInt64, KeysAPI_Get. rewrite Hf, Hk. simpl.
  destruct (ParseInt s). reflexivity.
Qed.

Lemma holds_store_with value : holds (store_with value 0) "/n" value.
Proof. split; [reflexivity|]. simpl. apply lookup_singleton_eq. Qed.

(** C7, as the code has it. With the store answering and holding [s] under
    the key, [GetInt64] makes one request and does not retry; when [s] is
    not a decimal integer it returns a parse error; when [s] is a decimal
    integer that is an int64 it returns that integer and no error; when
    [s] is a decimal integer outside the int64 range it returns the
    nearest int64, MinInt64 below the range and MaxInt64 above it,
    together with a range error. *)
Theorem GetInt64_parses_stored_value cl key e s :
  holds e key s ->
  requests (snd (GetInt64 cl key e)) = S (requests e) /\
  ((forall v, ~ numeral s v) ->
     exists i ne, fst (GetInt64 cl key e) = (i, Some (ParseError ne))) /\
  (forall v, numeral s v -> is_int64 v ->
     fst (GetInt64 cl key e) = (v, None)) /\
  (forall v, numeral s v -> ~ is_int64 v ->
     fst (GetInt64 cl key e) =
       (if v <? minInt64 then minInt64 else maxInt64,
        Some (ParseError (rangeError "ParseInt" s)))).
Proof.
  intros H. rewrite (GetInt64_holds cl key e s H).
  split; [|split; [|split]].
  - destruct (ParseInt s). reflexivity.
  - intros Hn. destruct (ParseInt s) as [i [ne|]] eqn:HP.
    + exists i, ne. reflexivity.
    + destruct (ParseInt_no_error s i HP) as [v Hv]. destruct (Hn v Hv).
  - intros v Hv [Hlo Hhi]. rewrite (ParseInt_numeral s v Hv).
    destruct (Z.ltb_spec v minInt64); [lia|].
    destruct (Z.ltb_spec maxInt64 v); [lia|]. reflexivity.
  - intros v Hv Hr. rewrite (ParseInt_numeral s v Hv).
    destruct (Z.ltb_spec v minInt64); [reflexivity|].
    destruct (Z.ltb_spec maxInt64 v); [reflexivity|].
    destruct Hr. split; lia.
Qed.

Lemma GetInt64_parses_stored_value_witness :
  holds (store_with "-42" 0) "/n" "-42" /\
  fst (GetInt64 a_client "/n" (store_with "-42" 0)) = (-42, None).
Proof.
  split; [apply holds_store_with|].
  apply (GetInt64_parses_stored_value a_client "/n" (store_with "-42" 0) "-42").
  - apply holds_store_with.
  - apply (numeral_minus "4" "2"). reflexivity.
  - unfold is_int64, minInt64, maxInt64. lia.
Defined.

(** C7 as stated fails: the stored value 9223372036854775808 is a decimal
    integer, and [GetInt64] returns another integer and an error. *)
Lemma GetInt64_decimal_integer_out_of_range :
  holds (store_with "9223372036854775808" 0) "/n" "9223372036854775808" /\
  numeral "9223372036854775808" 9223372036854775808 /\
  fst (GetInt64 a_client "/n" (store_with "9223372036854775808" 0))
    <> (9223372036854775808, None) /\
  fst (GetInt64 a_client "/n" (store_with "9223372036854775808" 0))
    = (9223372036854775807,
       Some (ParseError (rangeError "ParseInt" "9223372036854775808"))).
Proof.
  assert (H := holds_store_with "9223372036854775808").
  split; [exact H|]. split; [apply (numeral_digits "9" "223372036854775808"); reflexivity|].
  rewrite (GetInt64_holds _ _ _ _ H).
  split; [|vm_compute; reflexivity].
  vm_compute. discriminate.
Qed.

(** The text of a parse error quotes the string that was parsed. *)
Example Error_of_parse_error :
  Error (ParseError (syntaxError "ParseInt" "12a")) =
  "strconv.ParseInt: parsing " +:+
  String double_quote ("12a" +:+ String double_quote ": invalid syntax").
Proof. reflexivity. Qed.

(** C10. When the store's [Get] fails, [GetInt64] returns 0 and the
    store's own error, whatever the key space holds: the error is not a
    parse error, and the world is the one the failed request left. *)
Theorem GetInt64_store_error cl key e err e1 :
  KeysAPI_Get key e = (Fail err, e1) ->
  GetInt64 cl key e = ((0, Some err), e1) /\
  (exists msg, err = EtcdError msg) /\
  (forall ne, err <> ParseError ne).
Proof.
  intros H. unfold GetInt64. rewrite H. split; [reflexivity|].
  unfold KeysAPI_Get in H.
  destruct (faults e (requests e)) as [msg|].
  - injection H as <- _. split; [eauto | discriminate].
  - destruct (kv e !! key); [discriminate|].
    injection H as <- _. split; [eauto | discriminate].
Qed.

Lemma GetInt64_store_error_witness :
  GetInt64 a_client "/n" (store_with "7" 1)
    = ((0, Some (EtcdError "connection refused")), received (store_with "7" 1)).
Proof.
  apply (GetInt64_store_error a_client "/n" (store_with "7" 1)
           (EtcdError "connection refused") (received (store_with "7" 1))).
  reflexivity.
Defined.

(** One failed attempt of [Start]: the request is counted, the error is
    logged and the clock moves on by the one second slept. *)
Lemma Start_rejected fuel cl e msg :
  faults e (requests e) = Some msg ->
  Start (S fuel) cl e =
    Start fuel cl
      (time_Sleep Second
         (logger_Errorf ("Etcd server not ready: " +:+ msg) (received e))).
Proof.
  intros H. simpl. unfold SetInt64, KeysAPI_Set, time_Now_Unix. rewrite H. reflexivity.
Qed.

Lemma Start_accepted fuel cl e :
  faults e (requests e) = None ->
  Start (S fuel) cl e =
    Some (received (write (start_time_key cl) (FormatInt (now e)) e)).
Proof.
  intros H. simpl. unfold SetInt64, KeysAPI_Set, time_Now_Unix. rewrite H. reflexivity.
Qed.





(** The clock does not stand still between the attempts: in this run the
    store takes 1, 2, 3 seconds for its requests and the second sleep
    lasts a second longer than asked, so that the accepted write carries
    a time 6 seconds after the start, and [Start] returns 9 seconds after
    it. *)
Example Start_sample_run :
  option_map (fun e' => (kv e' !! "/client:agent-1/start-time", now e', slept e'))
             (Start 3 a_client (store_with "" 2))
  = Some (Some "1700000006", 1700000009, [1; 1]).
Proof. vm_compute. reflexivity. Qed.

End client_facts.

(** ** Properties of the forwarder *)

Module forwarder_facts.
Import graph messages ws forwarder forwarder_spec any_elements.

(** C4. Each graph event delivered to the forwarder makes exactly one
    call, [SendMessageToMaster], with the message type and the payload of
    the table; when the election knows a master, that one message is
    handed to the master's channel and to no other. *)
Theorem event_sends_one_message_of_the_table ev w :
  let m := NewStructMessage (table_type ev) (table_payload ev) in
  calls (deliver ev) w = [masterElection_SendMessageToMaster m] /\
  sent_messages (calls (deliver ev) w) = [m] /\
  result (deliver ev) w = Returned tt (SendMessageToMaster m w) /\
  (forall p, master w = Some p ->
     outbox (SendMessageToMaster m w) = (outbox w ++ [(p, m)])%list).
Proof.
  intros m. subst m.
  repeat split; try (destruct ev; reflexivity).
  intros p Hp. unfold SendMessageToMaster. rewrite Hp. reflexivity.
Qed.

Lemma event_sends_one_message_of_the_table_witness :
  master synced_world = Some peer_P /\
  outbox (SendMessageToMaster
            (NewStructMessage NodePartiallyUpdatedMsgType
               (ObjPartiallyUpdated
                  {| ID := "n2"; UpdatedAt := 1700000000500; Revision := 3;
                     Ops := [{| graph.Type_ := PartiallyUpdatedAddOpType;
                                graph.Key := "MTU"; graph.Value := "1500" |}] |}))
            synced_world)
  = [(peer_P,
      NewStructMessage NodePartiallyUpdatedMsgType
        (ObjPartiallyUpdated
           {| ID := "n2"; UpdatedAt := 1700000000500; Revision := 3;
              Ops := [{| graph.Type_ := PartiallyUpdatedAddOpType;
                         graph.Key := "MTU"; graph.Value := "1500" |}] |}))].
Proof.
  split; [reflexivity|].
  apply (event_sends_one_message_of_the_table
           (NodeUpdated node_2
              [{| graph.Type_ := PartiallyUpdatedAddOpType;
                  graph.Key := "MTU"; graph.Value := "1500" |}])
           synced_world).
  reflexivity.
Defined.

(** C5. Each graph-event callback does one thing: it sends its message to
    the master, by exactly one call of [SendMessageToMaster], which hands
    the message to the master's channel when there is a master. It then
    returns, having made no call on the graph and left the graph, the
    master known to the election and the log as they were. *)
Theorem event_callback_leaves_graph_and_master ev w :
  let m := NewStructMessage (table_type ev) (table_payload ev) in
  calls (deliver ev) w = [masterElection_SendMessageToMaster m] /\
  sent_messages (calls (deliver ev) w) = [m] /\
  exists w',
    result (deliver ev) w = Returned tt w' /\
    outbox w' = (outbox w ++ match master w with
                             | Some p => [(p, m)]
                             | None => []
                             end)%list /\
    g w' = g w /\
    master w' = master w /\
    log w' = log w /\
    forallb (fun c => negb (is_graph_call c)) (calls (deliver ev) w) = true.
Proof.
  intros m. subst m.
  split; [destruct ev; reflexivity|]. split; [destruct ev; reflexivity|].
  exists (SendMessageToMaster (NewStructMessage (table_type ev) (table_payload ev)) w).
  split; [destruct ev; reflexivity|].
  unfold SendMessageToMaster.
  destruct (master w) eqn:Hm; simpl; rewrite ?Hm, ?app_nil_r;
    (repeat split; destruct ev; reflexivity).
Qed.

(** C3. With a nil speaker, [OnNewMaster] logs the loss, removes the
    forwarder as listener of the graph, and ends the process with exit
    status 1: these are all its calls, none follows the exit, and nothing
    is sent. *)
Theorem OnNewMaster_nil_unregisters_and_exits w :
  calls (OnNewMaster None) w =
    [logger_Warning "Lost connection to master"; graph_RemoveEventListener; os_Exit 1] /\
  (exists w',
     result (OnNewMaster None) w = Exited 1 w' /\
     listening (g w') = false /\
     elements (g w') = elements (g w) /\
     outbox w' = outbox w /\
     master w' = master w) /\
  1 <> 0 /\
  sent_messages (calls (OnNewMaster None) w) = [].
Proof.
  split; [reflexivity|]. split; [|split; [lia | reflexivity]].
  eexists. split; [reflexivity|]. repeat split.
Qed.



(** When what [Elements] returns changes from one call to the next, so do
    the snapshots sent. *)
Example triggerResync_changing_order :
  exists w1,
    snd (run_with in_changing_order triggerResync two_node_world) = Returned tt w1 /\
    sent_messages (fst (run_with in_changing_order triggerResync two_node_world)) <>
    sent_messages (fst (run_with in_changing_order triggerResync w1)).
Proof. eexists. split; [reflexivity|]. vm_compute. discriminate. Qed.

(** C2, as the code has it. With a non-nil speaker [c] and the graph's
    lock not held exclusively, [OnNewMaster] makes the calls of the
    resync sequence and no other: it does not unregister the listener
    first, whether or not the forwarder was listening. It sends one
    SyncMsg with the elements of the graph, registers the forwarder as
    listener and returns, with the lock as it found it and the election's
    master untouched; when the election's master is [c], the SyncMsg goes
    to [c]. *)
Theorem OnNewMaster_resyncs_then_listens c w :
  writer (g w) = false ->
  calls (OnNewMaster (Some c)) w = resync_calls c (elements (g w)) /\
  stops_listening_first (calls (OnNewMaster (Some c)) w) = false /\
  sent_messages (calls (OnNewMaster (Some c)) w) = [sync_message (elements (g w))] /\
  exists w',
    result (OnNewMaster (Some c)) w = Returned tt w' /\
    listening (g w') = true /\
    elements (g w') = elements (g w) /\
    readers (g w') = readers (g w) /\
    writer (g w') = false /\
    master w' = master w /\
    (master w = Some c ->
       outbox w' = (outbox w ++ [(c, sync_message (elements (g w)))])%list).
Proof.
  intros Hw. destruct c as [addr port].
  assert (Hrun : run (OnNewMaster (Some {| Addr := addr; Port := port |})) w =
    (resync_calls {| Addr := addr; Port := port |} (elements (g w)),
     Returned tt
       (with_graph
          (SendMessageToMaster (sync_message (elements (g w)))
             (with_log
                (with_log w INFO
                   ("Using " +:+ addr +:+ ":" +:+ strconv.FormatInt port +:+
                    " as master of topology forwarder"))
                INFO "Start a re-sync"))
          {| elements := elements (g w); listening := true;
             readers := readers (g w); writer := false |}))).
  { destruct w as [[els lst rd wr] m ob lg]. cbn in Hw. subst wr.
    destruct m; reflexivity. }
  unfold calls, result. rewrite Hrun. cbn [fst snd].
  split; [reflexivity|]. split; [reflexivity|]. split; [reflexivity|].
  eexists. split; [reflexivity|].
  unfold SendMessageToMaster. cbn [master with_log].
  destruct (master w) as [p|] eqn:Hm; cbn [g master outbox with_graph];
    (repeat split; try reflexivity; try discriminate; try exact Hm).
  intros [= ->]. reflexivity.
Qed.

Lemma OnNewMaster_resyncs_then_listens_witness :
  writer (g synced_world) = false /\
  calls (OnNewMaster (Some peer_P)) synced_world =
    resync_calls peer_P [NodeElement node_1].
Proof.
  split; [reflexivity|].
  apply (OnNewMaster_resyncs_then_listens peer_P synced_world). reflexivity.
Defined.

(** C2 as stated fails: called with a peer while the forwarder is
    listening, [OnNewMaster] does not unregister the listener before it
    sends the SyncMsg, nor at any other point. *)
Lemma OnNewMaster_synced_keeps_listening :
  listening (g synced_world) = true /\
  stops_listening_first (calls (OnNewMaster (Some peer_P)) synced_world) = false /\
  ~ In graph_RemoveEventListener (calls (OnNewMaster (Some peer_P)) synced_world).
Proof.
  split; [reflexivity|]. split; [reflexivity|].
  intros H. vm_compute in H. intuition discriminate.
Qed.

(** *** Interleavings of [OnNewMaster] with the users of the graph *)

Lemma with_graph_id w : with_graph w (g w) = w.
Proof. destruct w. reflexivity. Qed.

Lemma fwd_calls_env acts ls :
  fwd_calls (map Env acts ++ ls) = fwd_calls ls.
Proof. induction acts as [|a acts IH]; simpl; auto. Qed.

Lemma undisturbed_env held acts ls :
  undisturbed held (map Env acts ++ ls) =
  undisturbed held (map Env acts) && undisturbed held ls.
Proof.
  induction acts as [|a acts IH]; simpl; [reflexivity|].
  destruct a; rewrite IH; try reflexivity; apply andb_assoc.
Qed.

(** Any interleaving that starts when the forwarder is about to make the
    call [c] is a row of actions of the other threads, followed, if the
    forwarder gets that far, by the call and an interleaving of the rest
    of the method. *)
Lemma steps_Do_inv c k ls : forall w n cfg',
  steps {| prog := Do c k; world := w; envReaders := n |} ls cfg' ->
  (exists acts g' n',
     ls = map Env acts /\
     env_run acts (g w, n) = Some (g', n') /\
     cfg' = {| prog := Do c k; world := with_graph w g'; envReaders := n' |}) \/
  (exists acts ls' g' n' x w',
     ls = (map Env acts ++ Fwd c :: ls')%list /\
     env_run acts (g w, n) = Some (g', n') /\
     exec c (with_graph w g') = Done x w' /\
     steps {| prog := k x; world := w'; envReaders := n' |} ls' cfg').
Proof.
  induction ls as [|l ls IH]; intros w n cfg' H.
  - inversion H; subst. left. exists [], (g w), n.
    rewrite with_graph_id. auto.
  - inversion H as [|? ? cfg1 ? ? Hstep Hrest]; subst.
    inversion Hstep as [? c0 ? Hf|? a g1 n1 He]; subst.
    + unfold fwd_step in Hf. cbn [prog world envReaders] in Hf.
      destruct (exec c w) as [x w1| |] eqn:Hx; try discriminate.
      injection Hf as <- <-.
      right. exists [], ls, (g w), n, x, w1.
      rewrite with_graph_id. auto.
    + cbn [prog world envReaders] in *.
      destruct (IH _ _ _ Hrest)
        as [(acts & g2 & n2 & -> & Hrun & ->)
           |(acts & ls' & g2 & n2 & x & w2 & -> & Hrun & Hx & Hk)].
      * left. exists (a :: acts), g2, n2.
        cbn [env_run map]. rewrite He. auto.
      * right. exists (a :: acts), ls', g2, n2, x, w2.
        cbn [env_run map]. rewrite He. auto.
Qed.

Lemma steps_Ret_inv (a : unit) ls : forall w n cfg',
  steps {| prog := Ret a; world := w; envReaders := n |} ls cfg' ->
  exists acts g' n',
    ls = map Env acts /\
    env_run acts (g w, n) = Some (g', n') /\
    cfg' = {| prog := Ret a; world := with_graph w g'; envReaders := n' |}.
Proof.
  induction ls as [|l ls IH]; intros w n cfg' H.
  - inversion H; subst. exists [], (g w), n. rewrite with_graph_id. auto.
  - inversion H as [|? ? cfg1 ? ? Hstep Hrest]; subst.
    inversion Hstep as [? c0 ? Hf|? e g1 n1 He]; subst.
    + discriminate Hf.
    + cbn [prog world envReaders] in *.
      destruct (IH _ _ _ Hrest) as (acts & g2 & n2 & -> & Hrun & ->).
      exists (e :: acts), g2, n2. cbn [env_run map]. rewrite He. auto.
Qed.

(** While the forwarder has no read hold, the other threads may do
    anything the lock lets them do. *)
Lemma env_run_free acts : forall gr n gr' n',
  lock_ok false gr n ->
  env_run acts (gr, n) = Some (gr', n') ->
  lock_ok false gr' n' /\
  listening gr' = listening gr /\
  undisturbed false (map Env acts) = true.
Proof.
  induction acts as [|a acts IH]; intros gr n gr' n' Hok Hrun.
  - injection Hrun as <- <-. auto.
  - cbn [env_run] in Hrun.
    destruct (env_step a (gr, n)) as [[g1 n1]|] eqn:Hs; [|discriminate].
    assert (H1 : lock_ok false g1 n1 /\ listening g1 = listening gr).
    { destruct Hok as [Hr Hw]. destruct gr as [els lst rd wr].
      cbn [readers writer] in *. unfold lock_ok.
      destruct a; cbn in Hs.
      - unfold RLock in Hs. cbn in Hs. destruct wr; [discriminate|].
        injection Hs as <- <-. cbn. repeat split; [lia | discriminate].
      - destruct n as [|n0]; [discriminate|].
        unfold RUnlock in Hs. cbn in Hs. destruct rd as [|rd0]; [discriminate|].
        injection Hs as <- <-. cbn. repeat split; [lia | intros ->; lia].
      - destruct wr; [discriminate|]. destruct rd; [|discriminate].
        injection Hs as <- <-. cbn. repeat split; lia.
      - destruct wr; [|discriminate].
        injection Hs as <- <-. cbn. repeat split; auto.
      - destruct wr; [|discriminate].
        injection Hs as <- <-. cbn. repeat split; [lia | discriminate]. }
    destruct H1 as [H1 Hl1].
    destruct (IH _ _ _ _ H1 Hrun) as (H2 & Hl2 & Hu).
    repeat split; [apply H2 | apply H2 | congruence |].
    cbn [map]. destruct a; cbn [undisturbed negb andb]; exact Hu.
Qed.

(** While the forwarder has a read hold, the other threads can only take
    and release read holds: the elements of the graph stay as they are. *)
Lemma env_run_held acts : forall gr n gr' n',
  lock_ok true gr n ->
  env_run acts (gr, n) = Some (gr', n') ->
  lock_ok true gr' n' /\
  listening gr' = listening gr /\
  elements gr' = elements gr /\
  undisturbed true (map Env acts) = true.
Proof.
  induction acts as [|a acts IH]; intros gr n gr' n' Hok Hrun.
  - injection Hrun as <- <-. auto.
  - cbn [env_run] in Hrun.
    destruct (env_step a (gr, n)) as [[g1 n1]|] eqn:Hs; [|discriminate].
    assert (H1 : lock_ok true g1 n1 /\ listening g1 = listening gr /\
                 elements g1 = elements gr /\
                 undisturbed true [Env a] = true).
    { destruct Hok as [Hr Hw]. destruct gr as [els lst rd wr].
      cbn [readers writer] in *. unfold lock_ok.
      assert (wr = false) as -> by (destruct wr; [specialize (Hw eq_refl); lia | reflexivity]).
      destruct a; cbn in Hs.
      - unfold RLock in Hs. cbn in Hs.
        injection Hs as <- <-. cbn. repeat split; [lia | discriminate].
      - destruct n as [|n0]; [discriminate|].
        unfold RUnlock in Hs. cbn in Hs. destruct rd as [|rd0]; [discriminate|].
        injection Hs as <- <-. cbn. repeat split; [lia | discriminate].
      - destruct rd; [lia | discriminate].
      - discriminate.
      - discriminate. }
    destruct H1 as (H1 & Hl1 & He1 & Hu1).
    destruct (IH _ _ _ _ H1 Hrun) as (H2 & Hl2 & He2 & Hu).
    repeat split; [apply H2 | apply H2 | congruence | congruence |].
    change (map Env (a :: acts)) with ([Env a] ++ map Env acts)%list.
    change [Env a] with (map Env [a]).
    rewrite undisturbed_env. cbn [map]. rewrite Hu1, Hu. reflexivity.
Qed.

Lemma fwd_calls_env_only acts : fwd_calls (map Env acts) = [].
Proof. induction acts as [|a acts IH]; simpl; auto. Qed.

Lemma RLock_ok gr gr' n :
  lock_ok false gr n -> RLock gr = Some gr' ->
  lock_ok true gr' n /\ elements gr' = elements gr /\ listening gr' = listening gr.
Proof.
  intros [Hr Hw] H. unfold RLock in H. destruct (writer gr) eqn:E; [discriminate|].
  injection H as <-. unfold lock_ok. cbn. repeat split; [lia | congruence].
Qed.

Lemma RUnlock_ok gr n :
  lock_ok true gr n ->
  exists gr', RUnlock gr = Some gr' /\
    lock_ok false gr' n /\ elements gr' = elements gr /\ listening gr' = listening gr.
Proof.
  intros [Hr Hw]. unfold RUnlock. destruct (readers gr) as [|r] eqn:E; [lia|].
  eexists. split; [reflexivity|]. unfold lock_ok. cbn.
  repeat split; [lia|]. intros Hwr. specialize (Hw Hwr). lia.
Qed.

Lemma g_SendMessageToMaster m w : g (SendMessageToMaster m w) = g w.
Proof. unfold SendMessageToMaster. destruct (master w); reflexivity. Qed.

Ltac peel H Hrun Hx :=
  let acts := fresh "acts" in
  let ls' := fresh "ls" in
  let g' := fresh "g" in
  let n' := fresh "n" in
  let x := fresh "x" in
  let w' := fresh "w" in
  apply steps_Do_inv in H;
  destruct H as [(acts & g' & n' & -> & Hrun & ->)
                |(acts & ls' & g' & n' & x & w' & -> & Hrun & Hx & H)].

Ltac solve_undisturbed :=
  repeat (rewrite undisturbed_env; cbn [undisturbed]);
  repeat match goal with
    | H : undisturbed _ (map Env _) = true |- _ => rewrite H
    end;
  reflexivity.

Ltac solve_prefix :=
  repeat (rewrite fwd_calls_env; cbn [fwd_calls]);
  rewrite ?fwd_calls_env_only;
  first [ exists []; eexists; reflexivity | eexists; eexists; reflexivity ].

Ltac no_such_step :=
  let cfg := fresh "cfg" in
  let Hs := fresh "Hs" in
  let Hf := fresh "Hf" in
  intros cfg Hs; inversion Hs as [? ? ? Hf|]; subst;
  unfold fwd_step in Hf; cbn in Hf;
  repeat match type of Hf with
    | context [match ?e with _ => _ end] => destruct e
    end;
  discriminate Hf.

(** C1. Take any interleaving of [OnNewMaster], called with a non-nil
    speaker, with the other users of the graph, from a state where the
    forwarder has no hold on the graph's lock. Then:
    - between the forwarder's [RLock] and its [RUnlock] no other thread
      takes the exclusive hold or mutates the graph;
    - the calls of the forwarder are, in this order, a beginning of the
      resync sequence: one [RLock], the snapshot, the send of the
      SyncMsg, the registration as listener, one [RUnlock]; they are the
      whole sequence when the method has returned;
    - at the step that registers the listener, the SyncMsg already sent
      holds the elements the graph has at that very moment, and the read
      hold is still in place;
    - the method never ends the process on this path. *)
Theorem OnNewMaster_resync_under_one_read_hold c w n ls cfg' :
  lock_ok false (g w) n ->
  steps (on_new_master c w n) ls cfg' ->
  undisturbed false ls = true /\
  (exists els, fwd_calls ls `prefix_of` resync_calls c els) /\
  (prog cfg' = Ret tt -> exists els, fwd_calls ls = resync_calls c els) /\
  (forall cfg'', step cfg' (Fwd graph_AddEventListener) cfg'' ->
     In (Fwd (masterElection_SendMessageToMaster
                (sync_message (elements (g (world cfg'')))))) ls /\
     listening (g (world cfg'')) = true /\
     lock_ok true (g (world cfg'')) (envReaders cfg'')) /\
  halts_next cfg' = false.
Proof.
  intros Hok H. destruct c as [addr port].
  unfold on_new_master, OnNewMaster, GetAddrPort in H. cbn [Addr Port] in H.
  unfold triggerResync, call in H. cbn [mbind Prog_bind bind] in H.
  unfold resync_calls. cbn [Addr Port].
  peel H Hrun1 Hx1;
    destruct (env_run_free _ _ _ _ _ Hok Hrun1) as (Hok1 & Hl1 & Hu1).
  { split; [solve_undisturbed|]. split; [solve_prefix|].
    split; [discriminate|]. split; [no_such_step|]. reflexivity. }
  cbn in Hx1. injection Hx1 as Hx1. subst.
  (* graph_RLock *)
  peel H Hrun2 Hx2;
    destruct (env_run_free _ _ _ _ _ Hok1 Hrun2) as (Hok2 & Hl2 & Hu2).
  { split; [solve_undisturbed|]. split; [solve_prefix|].
    split; [discriminate|]. split; [no_such_step|].
    unfold halts_next. cbn. destruct (RLock _); reflexivity. }
  cbn in Hx2. destruct (RLock g1) as [g2|] eqn:HR; [|discriminate].
  injection Hx2 as Hx2. subst.
  destruct (RLock_ok _ _ _ Hok2 HR) as (Hok2' & He2' & Hl2').
  (* logger_Infof "Start a re-sync" *)
  peel H Hrun3 Hx3;
    destruct (env_run_held _ _ _ _ _ Hok2' Hrun3) as (Hok3 & Hl3 & He3 & Hu3).
  { split; [solve_undisturbed|]. split; [solve_prefix|].
    split; [discriminate|]. split; [no_such_step|]. reflexivity. }
  cbn in Hx3. injection Hx3 as Hx3. subst.
  (* graph_Elements *)
  peel H Hrun4 Hx4;
    destruct (env_run_held _ _ _ _ _ Hok3 Hrun4) as (Hok4 & Hl4 & He4 & Hu4).
  { split; [solve_undisturbed|]. split; [solve_prefix|].
    split; [discriminate|]. split; [no_such_step|]. reflexivity. }
  cbn in Hx4. injection Hx4 as Hx4 Hw4. subst.
  (* masterElection_SendMessageToMaster *)
  peel H Hrun5 Hx5;
    destruct (env_run_held _ _ _ _ _ Hok4 Hrun5) as (Hok5 & Hl5 & He5 & Hu5).
  { split; [solve_undisturbed|]. split; [solve_prefix|].
    split; [discriminate|]. split; [no_such_step|]. reflexivity. }
  cbn in Hx5. injection Hx5 as Hx5. subst.
  (* graph_AddEventListener *)
  peel H Hrun6 Hx6; rewrite g_SendMessageToMaster in Hrun6;
    destruct (env_run_held _ _ _ _ _ Hok5 Hrun6) as (Hok6 & Hl6 & He6 & Hu6).
  { split; [solve_undisturbed|]. split; [solve_prefix|].
    split; [discriminate|]. split; [|reflexivity].
    intros cfg'' Hs. inversion Hs as [? ? ? Hf|]; subst.
    unfold fwd_step in Hf. cbn in Hf. injection Hf as <-. cbn.
    split; [|split; [reflexivity | exact Hok6]].
    rewrite He6, He5.
    repeat (apply in_or_app; right; first [left; reflexivity | right]). }
  cbn in Hx6. injection Hx6 as Hx6. subst.
  (* graph_RUnlock *)
  assert (Hok6' : lock_ok true (AddEventListener g6) n5) by exact Hok6.
  peel H Hrun7 Hx7;
    destruct (env_run_held _ _ _ _ _ Hok6' Hrun7) as (Hok7 & Hl7 & He7 & Hu7).
  { split; [solve_undisturbed|]. split; [solve_prefix|].
    split; [discriminate|]. split; [no_such_step|].
    unfold halts_next. cbn.
    destruct (RUnlock_ok _ _ Hok7) as (g' & -> & _). reflexivity. }
  cbn in Hx7.
  destruct (RUnlock_ok _ _ Hok7) as (g8 & HU & Hok8 & He8 & Hl8).
  rewrite HU in Hx7. injection Hx7 as Hx7. subst.
  (* return *)
  apply steps_Ret_inv in H.
  destruct H as (acts6 & g9 & n9 & -> & Hrun9 & ->).
  destruct (env_run_free _ _ _ _ _ Hok8 Hrun9) as (Hok9 & Hl9 & Hu9).
  split; [solve_undisturbed|]. split; [solve_prefix|].
  split; [|split; [no_such_step | reflexivity]].
  intros _. repeat (rewrite fwd_calls_env; cbn [fwd_calls]).
  rewrite fwd_calls_env_only. eexists. reflexivity.
Qed.

Ltac one_step :=
  eapply steps_cons;
  [ first [ apply step_fwd; cbv; reflexivity | eapply step_env; cbv; reflexivity ]
  | match goal with
    | |- steps ?c _ _ => let c' := eval cbv in c in change c with c'
    end ].

Lemma OnNewMaster_resync_under_one_read_hold_witness :
  lock_ok false (g synced_world) 0 /\
  exists cfg',
    steps (on_new_master peer_P synced_world 0) sample_interleaving cfg' /\
    prog cfg' = Ret tt /\
    undisturbed false sample_interleaving = true /\
    exists els, fwd_calls sample_interleaving = resync_calls peer_P els.
Proof.
  assert (Hok : lock_ok false (g synced_world) 0).
  { split; [reflexivity | discriminate]. }
  split; [exact Hok|].
  assert (Hsteps : exists cfg',
    steps (on_new_master peer_P synced_world 0) sample_interleaving cfg' /\
    prog cfg' = Ret tt).
  { eexists. split.
    - unfold sample_interleaving, on_new_master. repeat one_step. apply steps_nil.
    - reflexivity. }
  destruct Hsteps as (cfg' & Hsteps & Hret).
  exists cfg'. split; [exact Hsteps|]. split; [exact Hret|].
  destruct (OnNewMaster_resync_under_one_read_hold
              peer_P synced_world 0 sample_interleaving cfg' Hok Hsteps)
    as (Hund & _ & Hall & _).
  split; [exact Hund | exact (Hall Hret)].
Defined.

End forwarder_facts.

(** ** More properties of the client *)

Module client_more_facts.
Import GoInt strconv numerals client client_spec strconv_facts client_facts.
Import client_new more_spec.

Lemma string_of_uint_acc d : forall acc,
  all_digits (NilEmpty.string_of_uint d) = true /\
  digits_value (Zpos acc) (NilEmpty.string_of_uint d) = Zpos (Pos.of_uint_acc d acc).
Proof.
  induction d as [|d IH|d IH|d IH|d IH|d IH|d IH|d IH|d IH|d IH|d IH]; intros acc;
    cbn [NilEmpty.string_of_uint all_digits digits_value Pos.of_uint_acc];
    [split; reflexivity| ..];
    vm_compute (is_digit _); vm_compute (byte _ - 48); cbn [andb];
    (split; [exact (proj1 (IH acc))|]);
    match goal with
    | |- digits_value ?a _ = Zpos (Pos.of_uint_acc _ ?b) =>
        replace a with (Zpos b) by lia; exact (proj2 (IH b))
    end.
Qed.

Lemma string_of_uint_value d :
  all_digits (NilEmpty.string_of_uint d) = true /\
  digits_value 0 (NilEmpty.string_of_uint d) = Z.of_N (Pos.of_uint d).
Proof.
  induction d as [|d IH|d IH|d IH|d IH|d IH|d IH|d IH|d IH|d IH|d IH];
    cbn [NilEmpty.string_of_uint all_digits digits_value Pos.of_uint];
    [split; reflexivity| ..];
    vm_compute (is_digit _); vm_compute (byte _ - 48); cbn [andb];
    [exact IH | ..];
    (split; [exact (proj1 (string_of_uint_acc d 1))|]);
    match goal with
    | |- digits_value ?a _ = Z.of_N (Npos (Pos.of_uint_acc _ ?b)) =>
        change a with (Zpos b); exact (proj2 (string_of_uint_acc d b))
    end.
Qed.

Lemma string_of_uint_nonnil d :
  d <> Decimal.Nil ->
  exists c rest, NilZero.string_of_uint d = String c rest /\
                 NilEmpty.string_of_uint d = String c rest.
Proof. destruct d; [congruence | ..]; intros _; eexists; eexists; split; reflexivity. Qed.

(** What [FormatInt] prints is a decimal integer that denotes its argument. *)
Lemma numeral_FormatInt z : numeral (FormatInt z) z.
Proof.
  unfold FormatInt. destruct z as [|p|p]; cbn [Z.to_int NilZero.string_of_int].
  - apply (numeral_digits "0" "" eq_refl).
  - destruct (string_of_uint_nonnil _ (DecimalPos.Unsigned.to_uint_nonnil p))
      as (c & rest & -> & Hs).
    destruct (string_of_uint_value (Pos.to_uint p)) as [Hd Hv].
    rewrite Hs in Hd, Hv. rewrite DecimalPos.Unsigned.of_to in Hv.
    replace (Zpos p) with (digits_value 0 (String c rest)) by exact Hv.
    apply numeral_digits, Hd.
  - destruct (string_of_uint_nonnil _ (DecimalPos.Unsigned.to_uint_nonnil p))
      as (c & rest & -> & Hs).
    destruct (string_of_uint_value (Pos.to_uint p)) as [Hd Hv].
    rewrite Hs in Hd, Hv. rewrite DecimalPos.Unsigned.of_to in Hv.
    replace (Zneg p) with (- digits_value 0 (String c rest)) by (rewrite Hv; reflexivity).
    apply numeral_minus, Hd.
Qed.

Lemma ParseInt_FormatInt z : is_int64 z -> ParseInt (FormatInt z) = (z, None).
Proof.
  intros [Hlo Hhi]. rewrite (ParseInt_numeral _ z (numeral_FormatInt z)).
  destruct (Z.ltb_spec z minInt64); [lia|].
  destruct (Z.ltb_spec maxInt64 z); [lia|]. reflexivity.
Qed.

Lemma int64_range z : is_int64 (int64 z).
Proof.
  unfold is_int64, int64, minInt64, maxInt64.
  pose proof (Z.mod_pos_bound (z + 2 ^ 63) (2 ^ 64) ltac:(lia)). lia.
Qed.

Ltac break_match :=
  match goal with
  | |- context [match ?x with _ => _ end] =>
      lazymatch x with
      | context [match _ with _ => _ end] => fail
      | _ => destruct x eqn:?
      end
  end.

(** Whatever the string, the first result of [ParseInt] is an int64. *)
Lemma ParseInt_is_int64 s : is_int64 (fst (ParseInt s)).
Proof.
  destruct s as [|ch rest]; [cbn; unfold is_int64, minInt64, maxInt64; lia|].
  unfold ParseInt.
  repeat break_match; cbn [fst];
    first [ apply int64_range | unfold is_int64, minInt64, maxInt64; lia ].
Qed.

(** With an error, the first result of [ParseInt] is 0 or a bound. *)
Lemma ParseInt_error_value s i e :
  ParseInt s = (i, Some e) -> i = 0 \/ i = minInt64 \/ i = maxInt64.
Proof.
  destruct s as [|ch rest]; [intros [= <- _]; auto|].
  unfold ParseInt.
  assert (Hbody : forall neg c r,
    (let '(un, err) := ParseUint (String c r) in
     match err with
     | Some {| Err_ := ErrSyntax |} => (0, Some (syntaxError "ParseInt" (String ch rest)))
     | _ =>
       let cutoff := uint64 (Z.shiftl 1 (bitSize - 1)) in
       if negb neg && (cutoff <=? un)
       then (int64 (cutoff - 1), Some (rangeError "ParseInt" (String ch rest)))
       else if neg && (cutoff <? un)
       then (int64 (- int64 cutoff), Some (rangeError "ParseInt" (String ch rest)))
       else
         let n := int64 un in
         let n := if neg then int64 (- n) else n in
         (n, None)
     end) = (i, Some e) -> i = 0 \/ i = minInt64 \/ i = maxInt64).
  { intros neg c r.
    destruct (ParseUint (String c r)) as [un [[f nm []]|]];
      cbv beta iota zeta delta [Err_];
      change (uint64 (Z.shiftl 1 (bitSize - 1))) with 9223372036854775808;
      change (int64 (9223372036854775808 - 1)) with maxInt64;
      change (int64 (- int64 9223372036854775808)) with minInt64;
      repeat break_match; intros [= <- _]; auto. }
  destruct (Ascii.eqb ch "+").
  - destruct rest as [|c r]; [cbv; intros [= <- _]; auto | apply Hbody].
  - destruct (Ascii.eqb ch "-").
    + destruct rest as [|c r]; [cbv; intros [= <- _]; auto | apply Hbody].
    + apply Hbody.
Qed.

(** X1. Round trip of the two accessors: when the store accepts the write
    and answers the read that follows, [GetInt64] returns the int64 that
    [SetInt64] stored under the key, with no error, whatever the key held
    before. *)
Theorem SetInt64_then_GetInt64 cl key v e :
  is_int64 v ->
  faults e (requests e) = None ->
  faults e (S (requests e)) = None ->
  exists e1,
    SetInt64 cl key v e = (None, e1) /\
    fst (GetInt64 cl key e1) = (v, None) /\
    requests (snd (GetInt64 cl key e1)) = S (S (requests e)).
Proof.
  intros Hv Hset Hget.
  unfold SetInt64, KeysAPI_Set. rewrite Hset.
  eexists. split; [reflexivity|].
  assert (H : holds (received (write key (FormatInt v) e)) key (FormatInt v)).
  { split; [exact Hget | apply lookup_insert_eq]. }
  rewrite (GetInt64_holds _ _ _ _ H), (ParseInt_FormatInt v Hv). split; reflexivity.
Qed.

Lemma SetInt64_then_GetInt64_witness :
  exists e1,
    SetInt64 a_client "/n" (-9223372036854775808) (store_with "17" 0) = (None, e1) /\
    fst (GetInt64 a_client "/n" e1) = (-9223372036854775808, None).
Proof.
  destruct (SetInt64_then_GetInt64 a_client "/n" (-9223372036854775808) (store_with "17" 0))
    as (e1 & H1 & H2 & _).
  - unfold is_int64, minInt64, maxInt64. lia.
  - reflexivity.
  - reflexivity.
  - exists e1. split; assumption.
Defined.

(** X2. [SetInt64] returns an error exactly when the store rejects the
    write, and then no key has changed; when the write is accepted, only
    the given key has changed, so that [GetInt64] on any other key returns
    what it would have returned without the write. *)
Theorem SetInt64_touches_one_key cl key v e :
  (forall msg, faults e (requests e) = Some msg ->
     SetInt64 cl key v e = (Some (EtcdError msg), received e)) /\
  (faults e (requests e) = None ->
     exists e1,
       SetInt64 cl key v e = (None, e1) /\
       requests e1 = S (requests e) /\
       forall key', key' <> key ->
         kv e1 !! key' = kv e !! key' /\
         fst (GetInt64 cl key' e1) = fst (GetInt64 cl key' (received e))).
Proof.
  unfold SetInt64, KeysAPI_Set. split.
  - intros msg H. rewrite H. reflexivity.
  - intros H. rewrite H. eexists. split; [reflexivity|]. split; [reflexivity|].
    intros key' Hne.
    assert (Hk : kv (received (write key (FormatInt v) e)) !! key' = kv e !! key').
    { cbn. apply lookup_insert_ne. congruence. }
    split; [exact Hk|].
    unfold GetInt64, KeysAPI_Get. rewrite Hk. cbn [faults requests received write kv].
    destruct (faults e (S (requests e))); [reflexivity|].
    destruct (kv e !! key'); [|reflexivity].
    cbn. destruct (ParseInt _). reflexivity.
Qed.

Lemma SetInt64_touches_one_key_witness :
  exists e1,
    SetInt64 a_client "/m" 5 (store_with "17" 0) = (None, e1) /\
    fst (GetInt64 a_client "/n" e1) = (17, None).
Proof.
  destruct (proj2 (SetInt64_touches_one_key a_client "/m" 5 (store_with "17" 0)) eq_refl)
    as (e1 & H1 & _ & H2).
  exists e1. split; [exact H1|].
  destruct (H2 "/n" ltac:(discriminate)) as [_ ->].
  rewrite (GetInt64_holds _ _ _ "17").
  - reflexivity.
  - split; [reflexivity | apply lookup_singleton_eq].
Defined.

(** X3. Whatever the store holds and however it fails, the first result
    of [GetInt64] is an int64; when it comes with an error it is 0,
    MinInt64 or MaxInt64. *)
Theorem GetInt64_result_is_int64 cl key e :
  is_int64 (fst (fst (GetInt64 cl key e))) /\
  (snd (fst (GetInt64 cl key e)) <> None ->
     fst (fst (GetInt64 cl key e)) = 0 \/
     fst (fst (GetInt64 cl key e)) = minInt64 \/
     fst (fst (GetInt64 cl key e)) = maxInt64).
Proof.
  unfold GetInt64. destruct (KeysAPI_Get key e) as [[resp|err] e1].
  - pose proof (ParseInt_is_int64 (Value (Node_ resp))) as Hr.
    destruct (ParseInt (Value (Node_ resp))) as [i [ne|]] eqn:HP; cbn in *.
    + split; [exact Hr|]. intros _. apply (ParseInt_error_value _ _ _ HP).
    + split; [exact Hr | congruence].
  - cbn. split; [unfold is_int64, minInt64, maxInt64; lia | auto].
Qed.

Lemma GetInt64_result_is_int64_witness :
  fst (fst (GetInt64 a_client "/n" (store_with "99999999999999999999x" 0))) = 0 \/
  fst (fst (GetInt64 a_client "/n" (store_with "99999999999999999999x" 0))) = minInt64 \/
  fst (fst (GetInt64 a_client "/n" (store_with "99999999999999999999x" 0))) = maxInt64.
Proof.
  apply (GetInt64_result_is_int64 a_client "/n" (store_with "99999999999999999999x" 0)).
  rewrite (GetInt64_holds _ _ _ _ (holds_store_with _)).
  vm_compute. discriminate.
Defined.

Lemma rejections_S e k msg :
  faults e (requests e) = Some msg ->
  rejections e (S k) =
  msg :: rejections
           (time_Sleep Second
              (logger_Errorf ("Etcd server not ready: " +:+ msg) (received e))) k.
Proof.
  intros H. unfold rejections. cbn [seq map]. rewrite Nat.add_0_r, H. f_equal.
  rewrite <- List.seq_shift, List.map_map. apply List.map_ext.
  intros j. cbn [faults requests time_Sleep logger_Errorf received].
  rewrite Nat.add_succ_r. reflexivity.
Qed.

(** The world [Start] returns in, when the store rejects [k] writes and
    accepts the next; [t] is the time read for the accepted write. *)
Lemma Start_final k : forall cl e,
  accepts_after e k ->
  exists e' t,
    Start (S k) cl e = Some e' /\
    faults e' = faults e /\
    requests e' = (requests e + S k)%nat /\
    now e + Z.of_nat k * Second <= t /\
    t <= now e' /\
    kv e' = <[start_time_key cl := FormatInt t]> (kv e) /\
    logged e' =
      (logged e ++ map (fun msg => "Etcd server not ready: " +:+ msg) (rejections e k))%list.
Proof.
  induction k as [|k IH]; intros cl e [Hrej Hacc].
  - rewrite Nat.add_0_r in Hacc. rewrite (Start_accepted _ _ _ Hacc).
    eexists. exists (now e). split; [reflexivity|]. cbn.
    rewrite app_nil_r. unfold Second. repeat split; lia.
  - destruct (faults e (requests e)) as [msg|] eqn:Hnow.
    2:{ destruct (Hrej O ltac:(lia)). rewrite Nat.add_0_r. exact Hnow. }
    rewrite (Start_rejected _ _ _ _ Hnow), (rejections_S _ _ _ Hnow).
    set (e1 := time_Sleep Second
                 (logger_Errorf ("Etcd server not ready: " +:+ msg) (received e))).
    assert (H1 : accepts_after e1 k).
    { split; cbn.
      - intros j Hj. specialize (Hrej (S j) ltac:(lia)).
        rewrite Nat.add_succ_r in Hrej. exact Hrej.
      - rewrite Nat.add_succ_r in Hacc. exact Hacc. }
    destruct (IH cl e1 H1) as (e' & t & HS & Hf & Hreq & Hlo & Hhi & Hkv & Hlog).
    exists e', t. split; [exact HS|]. subst e1. cbn in Hf, Hreq, Hlo, Hkv, Hlog.
    unfold Second in *.
    split; [exact Hf|]. split; [lia|]. split; [lia|]. split; [exact Hhi|].
    split; [exact Hkv|].
    rewrite Hlog, <- app_assoc. reflexivity.
Qed.



(** X5. [Start] logs every rejected write: when the store rejects [k]
    writes and accepts the next, the log has grown by exactly [k] lines,
    one per rejection and in their order, each the text
    "Etcd server not ready: " followed by the store's error for it. *)
Theorem Start_logs_each_rejection cl e k :
  accepts_after e k ->
  exists e',
    Start (S k) cl e = Some e' /\
    logged e' =
      (logged e ++ map (fun msg => "Etcd server not ready: " +:+ msg) (rejections e k))%list.
Proof.
  intros Hacc.
  destruct (Start_final k cl e Hacc) as (e' & t & HS & _ & _ & _ & _ & _ & Hlog).
  exists e'. split; assumption.
Qed.

Lemma Start_logs_each_rejection_witness :
  exists e',
    Start 3 a_client (store_with "" 2) = Some e' /\
    logged e' = ["Etcd server not ready: connection refused";
                 "Etcd server not ready: connection refused"].
Proof.
  destruct (Start_logs_each_rejection a_client (store_with "" 2) 2) as (e' & H1 & H2).
  - split.
    + intros j Hj. simpl. destruct (Nat.ltb_spec j 2); [discriminate | lia].
    + reflexivity.
  - exists e'. split; [exact H1 | exact H2].
Defined.

(** X6. [NewClient] calls [etcd.New] with one configuration, which
    depends on the options only and never has an empty endpoint list or a
    zero timeout: an empty server list is replaced by the one endpoint
    127.0.0.1:12379, a zero timeout by 5 seconds, and options that are
    set are passed on as they are. When [etcd.New] returns a client,
    [NewClient] returns no error and a client with the given id, that
    connection, its keys API and the given logger (the default logger when
    none was given); when [etcd.New] fails, it returns no client and the
    error "Failed to connect to etcd: " followed by the cause. *)
Theorem NewClient_configuration (EtcdClient : Type) id opts :
  exists cfg,
    Endpoints cfg <> [] /\
    HeaderTimeoutPerRequest cfg <> 0 /\
    Endpoints cfg = match Servers opts with
                    | [] => ["127.0.0.1:12379"]
                    | _ :: _ => Servers opts
                    end /\
    HeaderTimeoutPerRequest cfg = (if Timeout opts =? 0 then 5 * Second else Timeout opts) /\
    forall etcd_New : Config -> EtcdClient + string,
      match etcd_New cfg with
      | inl c =>
          NewClient EtcdClient etcd_New id opts =
            (Some {| self := {| client.id := id |};
                     client_ := c;
                     KeysAPI_ := NewKeysAPI EtcdClient c;
                     logger := match Logger_ opts with
                               | Some l => l
                               | None => GetLogger
                               end |},
             None)
      | inr err =>
          NewClient EtcdClient etcd_New id opts =
            (None, Some ("Failed to connect to etcd: " +:+ err))
      end.
Proof.
  destruct opts as [servers timeout lg].
  exists {| Endpoints := match servers with
                         | [] => ["127.0.0.1:12379"]
                         | _ :: _ => servers
                         end;
            Transport := DefaultTransport;
            HeaderTimeoutPerRequest := if timeout =? 0 then 5 * Second else timeout |}.
  cbn [Endpoints HeaderTimeoutPerRequest Servers Timeout Logger_].
  split; [destruct servers; discriminate|].
  split; [destruct (Z.eqb_spec timeout 0); [unfold Second; lia | assumption]|].
  split; [reflexivity|]. split; [reflexivity|].
  intros etcd_New. unfold NewClient, DefaultTimeout.
  change (DefaultServer +:+ ":" +:+ FormatInt DefaultPort) with "127.0.0.1:12379".
  cbn [Servers Timeout Logger_].
  destruct (timeout =? 0); destruct servers as [|s0 ss]; destruct lg as [l|];
    cbn [Servers Timeout Logger_ length Nat.eqb];
    match goal with
    | |- context [etcd_New ?c] => destruct (etcd_New c); reflexivity
    end.
Qed.

Example NewClient_zero_options :
  NewClient Config sample_etcd_New "agent-1"
    {| Servers := []; Timeout := 0; Logger_ := None |} =
  (Some {| self := {| client.id := "agent-1" |};
           client_ := {| Endpoints := ["127.0.0.1:12379"]; Transport := DefaultTransport;
                         HeaderTimeoutPerRequest := 5 |};
           KeysAPI_ := NewKeysAPI Config
                         {| Endpoints := ["127.0.0.1:12379"]; Transport := DefaultTransport;
                            HeaderTimeoutPerRequest := 5 |};
           logger := GetLogger |},
   None).
Proof. reflexivity. Qed.

End client_more_facts.

(** ** More properties of the forwarder *)

Module forwarder_more_facts.
Import graph messages ws forwarder forwarder_spec more_spec forwarder_facts.

(** Running one method body after another. *)
Lemma run_bind {A B : Type} (p : Prog A) (f : A -> Prog B) : forall w,
  run (p ≫= f) w =
  match run p w with
  | (cs, Returned a w') => let '(cs', r) := run (f a) w' in ((cs ++ cs')%list, r)
  | (cs, Waiting w') => (cs, Waiting w')
  | (cs, Exited code w') => (cs, Exited code w')
  end.
Proof.
  induction p as [a|c k IH]; intros w.
  - cbn. destruct (run (f a) w). reflexivity.
  - change (run (Do c k ≫= f) w)
      with (match exec c w with
            | Done x w' => let '(cs, r) := run (k x ≫= f) w' in (c :: cs, r)
            | Blocked => ([], Waiting w)
            | Halt code w' => ([c], Exited code w')
            end).
    cbn [run]. destruct (exec c w) as [x w'| |code w']; try reflexivity.
    rewrite IH. destruct (run (k x) w') as [cs [a w1|w1|code w1]]; try reflexivity.
    destruct (run (f a) w1). reflexivity.
Qed.

Lemma master_SendMessageToMaster m w : master (SendMessageToMaster m w) = master w.
Proof. unfold SendMessageToMaster. destruct (master w) eqn:E; cbn; rewrite ?E; reflexivity. Qed.



Lemma run_OnNewMaster_Some c w :
  writer (g w) = false ->
  run (OnNewMaster (Some c)) w =
    (resync_calls c (elements (g w)),
     Returned tt
       (with_graph
          (SendMessageToMaster (sync_message (elements (g w)))
             (with_log (with_log w INFO (using_line c)) INFO "Start a re-sync"))
          {| elements := elements (g w); listening := true;
             readers := readers (g w); writer := false |})).
Proof.
  intros Hw. destruct c as [addr port].
  destruct w as [[els lst rd wr] m ob lg]. cbn in Hw. subst wr.
  destruct m; reflexivity.
Qed.

Lemma run_deliver_all evs : forall w,
  exists w',
    run (deliver_all evs) w =
      (map (fun ev => masterElection_SendMessageToMaster
                        (NewStructMessage (table_type ev) (table_payload ev))) evs,
       Returned tt w') /\
    g w' = g w /\ master w' = master w /\ log w' = log w.
Proof.
  induction evs as [|ev evs IH]; intros w.
  - exists w. repeat split.
  - cbn [deliver_all map].
    change (deliver ev;; deliver_all evs) with (deliver ev ≫= (fun _ => deliver_all evs)).
    rewrite run_bind.
    set (m := NewStructMessage (table_type ev) (table_payload ev)).
    assert (Hev : run (deliver ev) w =
                  ([masterElection_SendMessageToMaster m], Returned tt (SendMessageToMaster m w)))
      by (destruct ev; reflexivity).
    rewrite Hev.
    destruct (IH (SendMessageToMaster m w)) as (w' & -> & Hg & Hm & Hl).
    exists w'. split; [reflexivity|].
    rewrite Hg, Hm, Hl, g_SendMessageToMaster. unfold SendMessageToMaster.
    destruct (master w) eqn:E; cbn; rewrite ?E; repeat split.
Qed.

(** X7. A message tells the master the kind of the event, the whole
    element for an addition or a deletion, and the identifier, time,
    revision and operations for a partial update, and nothing else: two
    events are forwarded as the same message exactly when they agree on
    these. *)
Theorem event_message_carries_delta ev1 ev2 w1 w2 :
  sent_messages (calls (deliver ev1) w1) = sent_messages (calls (deliver ev2) w2) <->
  delta_of_event ev1 = delta_of_event ev2.
Proof.
  destruct ev1, ev2; cbn; split; intros H; try discriminate H;
    injection H; intros; subst; congruence.
Qed.

Lemma event_message_carries_delta_witness :
  sent_messages (calls (deliver (NodeUpdated node_1 [])) synced_world) =
  sent_messages (calls (deliver (NodeUpdated node_1_renamed [])) synced_world) /\
  node_1 <> node_1_renamed.
Proof.
  split.
  - apply (proj2 (event_message_carries_delta
                    (NodeUpdated node_1 []) (NodeUpdated node_1_renamed [])
                    synced_world synced_world)).
    reflexivity.
  - discriminate.
Defined.

(** X8. After a resync the deltas follow the snapshot: when [OnNewMaster]
    is called with a speaker while the lock is not held exclusively, and
    the graph then delivers a row of events, the messages sent are the
    SyncMsg with the graph's elements and then one message per event, in
    the order of the events; the run returns with the forwarder listening
    and the elements of the graph, its lock and the election's master as
    they were. *)
Theorem resync_then_deltas c evs w :
  writer (g w) = false ->
  sent_messages (calls (OnNewMaster (Some c) ;; deliver_all evs) w) =
    sync_message (elements (g w))
    :: map (fun ev => NewStructMessage (table_type ev) (table_payload ev)) evs /\
  exists w',
    result (OnNewMaster (Some c) ;; deliver_all evs) w = Returned tt w' /\
    listening (g w') = true /\
    elements (g w') = elements (g w) /\
    readers (g w') = readers (g w) /\
    writer (g w') = false /\
    master w' = master w.
Proof.
  intros Hw. unfold calls, result.
  change (OnNewMaster (Some c);; deliver_all evs)
    with (OnNewMaster (Some c) ≫= (fun _ => deliver_all evs)).
  rewrite run_bind, (run_OnNewMaster_Some c w Hw).
  match goal with
  | |- context [run (deliver_all evs) ?w1] =>
      destruct (run_deliver_all evs w1) as (w' & -> & Hg & Hm & _)
  end.
  cbn [fst snd]. split.
  - unfold resync_calls. cbn [app sent_messages]. f_equal.
    induction evs as [|ev evs IH]; [reflexivity|]. cbn [map sent_messages]. f_equal. exact IH.
  - exists w'. split; [reflexivity|]. rewrite Hg, Hm.
    cbn [g with_graph elements listening readers writer master].
    rewrite master_SendMessageToMaster. repeat split.
Qed.

Lemma resync_then_deltas_witness :
  sent_messages
    (calls (OnNewMaster (Some peer_P) ;; deliver_all [NodeAdded node_2; NodeDeleted node_1])
       synced_world) =
  [ sync_message [NodeElement node_1];
    NewStructMessage NodeAddedMsgType (ObjNode node_2);
    NewStructMessage NodeDeletedMsgType (ObjNode node_1) ].
Proof.
  apply (resync_then_deltas peer_P [NodeAdded node_2; NodeDeleted node_1] synced_world).
  reflexivity.
Defined.






End forwarder_more_facts.
